(** * Segmentation core of translate_chinese_classic_enhanced.py

    A shallow embedding of the text-segmentation functions of the
    translation script ([count_tokens], [break_large_paragraph],
    [split_text_into_chapters], [force_substring_chunks],
    [segment_chapter]) together with the Python string primitives they
    call, of the translation driver ([translate_chunk],
    [translate_full_chapter], the chapter loop of [main]) over a
    translation service taken as a parameter, and the properties of the
    segmentation that the specification states about them. *)

From Stdlib Require Import List ZArith NArith Bool Arith Lia.
Import ListNotations.

Open Scope Z_scope.

(** ** Python strings

    A Python [str] is a sequence of Unicode code points; [len] counts code
    points, not bytes, so a string is a list of code points here. *)

Definition char : Type := N.
Definition str : Type := list char.

Definition len (s : str) : Z := Z.of_nat (length s).

(** Truth value of a string in a condition: non-empty. *)
Definition truthy (s : str) : bool :=
  match s with
  | [] => false
  | _ :: _ => true
  end.

(** Truth value of a list in a condition: non-empty. *)
Definition truthy_list {A : Type} (l : list A) : bool :=
  match l with
  | [] => false
  | _ :: _ => true
  end.

Definition c_space : char := 32%N.
Definition c_newline : char := 10%N.

(** Whitespace as [str.isspace], [str.strip], [str.split] and the regular
    expression class [\s] on [str] patterns see it. *)
Definition isspace (c : char) : bool :=
  ((9 <=? c) && (c <=? 13) || (28 <=? c) && (c <=? 32)
   || (c =? 133) || (c =? 160) || (c =? 5760)
   || (8192 <=? c) && (c <=? 8202)
   || (c =? 8232) || (c =? 8233) || (c =? 8239) || (c =? 8287)
   || (c =? 12288))%N.

Fixpoint lstrip (s : str) : str :=
  match s with
  | [] => []
  | c :: s' => if isspace c then lstrip s' else s
  end.

Fixpoint rstrip (s : str) : str :=
  match s with
  | [] => []
  | c :: s' =>
      match rstrip s' with
      | [] => if isspace c then [] else [c]
      | r => c :: r
      end
  end.

(** [s.strip()] *)
Definition strip (s : str) : str := rstrip (lstrip s).

(** [s.split()]: the maximal runs of non-whitespace characters. *)
Fixpoint split_ws (s : str) : list str :=
  match s with
  | [] => []
  | c :: s' =>
      if isspace c then split_ws s'
      else
        match s' with
        | [] => [[c]]
        | d :: _ =>
            if isspace d then [c] :: split_ws s'
            else
              match split_ws s' with
              | w :: ws => (c :: w) :: ws
              | [] => [[c]]
              end
        end
  end.

(** [sep.join(l)] *)
Fixpoint join (sep : str) (l : list str) : str :=
  match l with
  | [] => []
  | x :: l' =>
      match l' with
      | [] => x
      | _ :: _ => x ++ sep ++ join sep l'
      end
  end.

(** [s.split("\n\n")]: cut at the non-overlapping occurrences of a blank
    line, leftmost first; always at least one part. *)
Fixpoint split_blank (s : str) : list str :=
  match s with
  | [] => [[]]
  | c :: s' =>
      match s' with
      | d :: s'' =>
          if ((c =? c_newline) && (d =? c_newline))%N then [] :: split_blank s''
          else
            match split_blank s' with
            | p :: ps => (c :: p) :: ps
            | [] => [[c]]
            end
      | [] => [[c]]
      end
  end.

(** [s * n] *)
Definition times (s : str) (n : Z) : str := concat (repeat s (Z.to_nat n)).

(** ** Adjustable parameters *)

Definition MAX_TOKENS : Z := 6000.
Definition SUB_CHUNK_SIZE : Z := 3000.
Definition OVERLAP_TOKENS : Z := 100.

(** ** Sentence splitting

    [re.split(r'(?<=[。\.!?])\s*', paragraph)].  The pattern matches at
    every position that follows a sentence-ending character and consumes
    the whitespace after it (possibly none); [re.split] cuts at each
    match, also at the empty ones, and returns the rest of the string,
    possibly empty, as the last part. *)

Definition c_cjk_stop : char := 12290%N.  (* 。 *)

Definition is_sentence_end (c : char) : bool :=
  ((c =? c_cjk_stop) || (c =? 46) || (c =? 33) || (c =? 63))%N.

(** [skip] tells that a match is consuming whitespace at this position. *)
Fixpoint re_split_sentences_from (skip : bool) (s : str) : list str :=
  match s with
  | [] => [[]]
  | c :: s' =>
      if skip && isspace c then re_split_sentences_from true s'
      else if is_sentence_end c then [c] :: re_split_sentences_from true s'
      else
        match re_split_sentences_from false s' with
        | p :: ps => (c :: p) :: ps
        | [] => [[c]]
        end
  end.

Definition re_split_sentences (s : str) : list str :=
  re_split_sentences_from false s.

(** [[x.strip() for x in l if x.strip()]] *)
Definition strip_nonempty (l : list str) : list str :=
  map strip (filter (fun x => truthy (strip x)) l).

Definition sentences_of (paragraph : str) : list str :=
  strip_nonempty (re_split_sentences paragraph).

Definition paragraphs_of (chapter_text : str) : list str :=
  strip_nonempty (split_blank chapter_text).

(** ** Forced chunker *)

(** The [for w in words] loop of [force_substring_chunks]; the state is
    [results], [current_tokens], [current_text]. *)
Fixpoint force_loop (max_size : Z) (words : list str)
    (results : list str) (current_tokens : Z) (current_text : list str)
    : list str * list str :=
  match words with
  | [] => (results, current_text)
  | w :: words' =>
      if current_tokens + len w >? max_size then
        force_loop max_size words'
          (results ++ [join [c_space] current_text]) (len w) [w]
      else
        force_loop max_size words'
          results (current_tokens + len w) (current_text ++ [w])
  end.

Definition force_substring_chunks (text : str) (max_size : Z) : list str :=
  let '(results, current_text) :=
    force_loop max_size (split_ws text) [] 0 [] in
  if truthy_list current_text
  then results ++ [join [c_space] current_text]
  else results.

(** ** Overlap prefix of [break_large_paragraph]

    The inner [for w in reversed(last_chunk_tokens)] loop, which stops at
    the first word that does not fit. *)
Fixpoint overlap_loop (rev_words : list str) (tokens_so_far : Z)
    (overlap_chunk : str) : str :=
  match rev_words with
  | [] => overlap_chunk
  | w :: rev_words' =>
      if tokens_so_far + len w <=? OVERLAP_TOKENS then
        overlap_loop rev_words' (tokens_so_far + len w)
          (w ++ [c_space] ++ overlap_chunk)
      else overlap_chunk
  end.

Definition overlap_of (last_chunk : str) : str :=
  overlap_loop (rev (split_ws last_chunk)) 0 [].

Section Segmentation.

(** The tiktoken encoder when the import succeeded, [None] otherwise. *)
Variable TOKEN_ENCODER : option (str -> list N).

Definition count_tokens (text : str) : Z :=
  match TOKEN_ENCODER with
  | Some encode => Z.of_nat (length (encode text))
  | None => len text
  end.

(** One iteration of the sentence loop of [break_large_paragraph]; the
    state is [chunks], [current_chunk]. *)
Definition blp_step (st : list str * str) (sentence : str)
    : list str * str :=
  let '(chunks, current_chunk) := st in
  let candidate :=
    strip (current_chunk
           ++ (if truthy current_chunk then [c_space] else [])
           ++ sentence) in
  if count_tokens candidate >? SUB_CHUNK_SIZE then
    let chunks1 :=
      if truthy current_chunk then chunks ++ [current_chunk] else chunks in
    let candidate1 :=
      if (OVERLAP_TOKENS >? 0) && truthy_list chunks1
      then strip (overlap_of (last chunks1 []) ++ sentence)
      else candidate in
    (chunks1, candidate1)
  else (chunks, candidate).

Definition blp_finish (st : list str * str) : list str :=
  let '(chunks, current_chunk) := st in
  if truthy current_chunk then chunks ++ [current_chunk] else chunks.

Definition break_large_paragraph (paragraph : str) : list str :=
  blp_finish (fold_left blp_step (sentences_of paragraph) ([], [])).

(** The body of [for sc in subchunks] in [segment_chapter]. *)
Definition emit_subchunk (segments : list str) (sc : str) : list str :=
  if count_tokens sc <=? MAX_TOKENS then segments ++ [sc]
  else segments ++ force_substring_chunks sc MAX_TOKENS.

(** One iteration of the paragraph loop of [segment_chapter]; the state is
    [segments], [current_segment]. *)
Definition segment_step (st : list str * str) (para : str)
    : list str * str :=
  let '(segments, current_segment) := st in
  if count_tokens para >? MAX_TOKENS then
    let '(segments1, current1) :=
      if truthy current_segment
      then (segments ++ [strip current_segment], [])
      else (segments, current_segment) in
    (fold_left emit_subchunk (break_large_paragraph para) segments1,
     current1)
  else
    let candidate := strip (current_segment ++ para) in
    if count_tokens candidate >? MAX_TOKENS then
      (if truthy current_segment
       then segments ++ [strip current_segment]
       else segments,
       para ++ [c_newline; c_newline])
    else (segments, current_segment ++ [c_newline; c_newline] ++ para).

Definition segment_finish (st : list str * str) : list str :=
  let '(segments, current_segment) := st in
  if truthy current_segment
  then segments ++ [strip current_segment]
  else segments.

Definition segment_chapter (chapter_text : str) : list str :=
  if count_tokens chapter_text <=? MAX_TOKENS then [chapter_text]
  else
    segment_finish
      (fold_left segment_step (paragraphs_of chapter_text) ([], [])).

End Segmentation.

(** ** Chapter splitter

    [re.compile(r'(第[\u4e00-\u9fa5\d]+回)').split(text)]. *)

Definition c_di : char := 31532%N.   (* 第 *)
Definition c_hui : char := 22238%N.  (* 回 *)

(** [s[i:i+n]] *)
Definition substr (i n : nat) (s : str) : str := firstn n (skipn i s).

(** The digits 0 to 9, the part of the decimal-digit category that every
    version of the Unicode database has. *)
Definition isdecimal_ascii (c : char) : bool := ((48 <=? c) && (c <=? 57))%N.

Section Chapters.

(** [\d] on a [str] pattern is the decimal-digit category of the Unicode
    database of the Python runtime, a table outside this program. *)
Variable isdecimal : char -> bool.

(** The class [[\u4e00-\u9fa5\d]]. *)
Definition heading_class (c : char) : bool :=
  ((19968 <=? c) && (c <=? 40869))%N || isdecimal c.

(** Number of leading characters of the class: what the greedy [+] takes
    first. *)
Fixpoint run_length (s : str) : nat :=
  match s with
  | [] => 0%nat
  | c :: s' => if heading_class c then S (run_length s') else 0%nat
  end.

(** Backtracking of the greedy [+]: with [k] class characters taken,
    [k] from the whole run down to one, the next character must be 回. *)
Fixpoint backtrack_hui (k : nat) (rest : str) : option nat :=
  match k with
  | O => None
  | S k' =>
      match nth_error rest k with
      | Some c => if (c =? c_hui)%N then Some k else backtrack_hui k' rest
      | None => backtrack_hui k' rest
      end
  end.

(** Length of the match of the pattern at the start of [s], if any. *)
Definition match_heading (s : str) : option nat :=
  match s with
  | [] => None
  | c :: rest =>
      if (c =? c_di)%N
      then option_map (fun k => S (S k)) (backtrack_hui (run_length rest) rest)
      else None
  end.

(** [pattern.split]: the text before each match, then the matched group,
    and the rest of the text after the last match.  Matches are searched
    left to right, each search resuming where the last match ended. *)
Fixpoint pattern_split_from (fuel : nat) (s : str) : list str :=
  match fuel with
  | O => [s]
  | S fuel' =>
      match match_heading s with
      | Some n => [] :: firstn n s :: pattern_split_from fuel' (skipn n s)
      | None =>
          match s with
          | [] => [[]]
          | c :: s' =>
              match pattern_split_from fuel' s' with
              | p :: ps => (c :: p) :: ps
              | [] => [[c]]
              end
          end
      end
  end.

Definition pattern_split (text : str) : list str :=
  pattern_split_from (S (length text)) text.

(** The loop [for i in range(1, len(parts), 2)], on the parts from index
    [i] on. *)
Fixpoint chapters_loop (parts : list str) : list str :=
  match parts with
  | [] => []
  | title :: rest =>
      let content := match rest with c :: _ => c | [] => [] end in
      let chapter_text := strip (title ++ content) in
      (if truthy chapter_text then [chapter_text] else [])
      ++ match rest with
         | _ :: rest' => chapters_loop rest'
         | [] => []
         end
  end.

Definition split_text_into_chapters (text : str) : list str :=
  chapters_loop (tl (pattern_split text)).

(** A whole string matches the heading pattern: 第, one class character
    or more, 回. *)
Definition is_heading (h : str) : bool :=
  match h with
  | [] => false
  | c :: rest =>
      (c =? c_di)%N
      && match rev rest with
         | [] => false
         | l :: mid => (l =? c_hui)%N && truthy mid
                       && forallb (heading_class) mid
         end
  end.

(** Every substring of [s] that matches the heading pattern, as offset
    and length, by increasing offset. *)
Definition heading_occurrences (s : str) : list (nat * nat) :=
  flat_map
    (fun i =>
       map (fun n => (i, n))
         (filter (fun n => is_heading (substr i n s))
            (seq 1 (length s - i))))
    (seq 0 (length s)).

End Chapters.

(** ** Translation driver

    [translate_chunk], [translate_full_chapter] and the chapter loop of
    [main].  The chat-completion service is outside the program: it is a
    parameter, and so is what it answers to each request. *)

Section Translation.

(** The tiktoken encoder when the import succeeded, [None] otherwise. *)
Variable TOKEN_ENCODER : option (str -> list N).

(** [client.chat.completions.create(...).choices[0].message.content] for
    the request number [n] of the run, counted from 0, with the text as
    user message; [None] when the call raises. *)
Variable client : nat -> str -> option str.

(** [calls] is the number of requests made before this one. *)
Definition translate_chunk (calls : nat) (text_chunk : str) : option str :=
  option_map strip (client calls text_chunk).

(** The [for i, seg in enumerate(segments, start=1)] loop of
    [translate_full_chapter]; the state is the number of requests made
    and [translated_segments].  An exception of [translate_chunk] leaves
    the loop and the function. *)
Fixpoint translate_loop (calls : nat) (segments : list str)
    (translated_segments : list str) : nat * option (list str) :=
  match segments with
  | [] => (calls, Some translated_segments)
  | seg :: segments' =>
      match translate_chunk calls seg with
      | Some translation =>
          translate_loop (S calls) segments'
            (translated_segments ++ [translation])
      | None => (S calls, None)
      end
  end.

Definition translate_full_chapter (calls : nat) (chapter_text : str)
    : nat * option str :=
  let '(calls', translated_segments) :=
    translate_loop calls (segment_chapter TOKEN_ENCODER chapter_text) [] in
  (calls', option_map (join [c_newline; c_newline]) translated_segments).

(** The [for idx, chapter in enumerate(chapters, start=1)] loop of
    [main]; [saved] is the sequence of the calls
    [save_translation(f"Chapter_{idx}.txt", translated, OUTPUT_DIR)], as
    index and text.  An exception of [translate_full_chapter] is caught
    and breaks the loop. *)
Fixpoint main_loop (calls idx : nat) (chapters : list str)
    (saved : list (nat * str)) : nat * list (nat * str) :=
  match chapters with
  | [] => (calls, saved)
  | chapter :: chapters' =>
      match translate_full_chapter calls chapter with
      | (calls', Some translated) =>
          main_loop calls' (S idx) chapters' (saved ++ [(idx, translated)])
      | (calls', None) => (calls', saved)
      end
  end.

(** [main] from the text of the input file on: number of requests made
    and files saved. *)
Definition main_run (isdecimal : char -> bool) (text : str)
    : nat * list (nat * str) :=
  main_loop 0 1 (split_text_into_chapters isdecimal text) [].

End Translation.

(** * Vocabulary of the properties *)

(** ** Clean ends *)

Definition starts_nonspace (s : str) : Prop :=
  exists c s', s = c :: s' /\ isspace c = false.

Definition ends_nonspace (s : str) : Prop :=
  exists s' c, s = s' ++ [c] /\ isspace c = false.

(** ** The non-whitespace content of a string *)

Definition nonspace (c : char) : bool := negb (isspace c).

(** The string with its whitespace removed. *)
Definition nws (s : str) : str := filter nonspace s.

Arguments nws : simpl never.

(** ** Words *)

(** A word: non-empty, without whitespace. *)
Definition is_word (w : str) : Prop := w <> [] /\ forallb nonspace w = true.

(** Total character length of a list of words, joining spaces not
    counted: what [current_tokens] accumulates. *)
Definition sum_len (ws : list str) : Z := fold_right (fun w n => len w + n) 0 ws.

(** ** Pieces of the forced chunker *)

(** The words of one emitted piece: none (the piece emitted before an
    oversized first word), words that fit together, or one oversized
    word alone. *)
Definition piece_words (max_size : Z) (ws : list str) : Prop :=
  ws = [] \/ sum_len ws <= max_size \/ exists w, ws = [w] /\ max_size < len w.

Definition forced_piece (max_size : Z) (piece : str) : Prop :=
  exists ws,
    piece = join [c_space] ws /\ Forall is_word ws /\ piece_words max_size ws.

(** ** Coverage

    [covers ss t]: the strings [ss] occur in [t] one after the other, in
    this order and without overlapping, with anything in between. *)

Inductive covers : list str -> str -> Prop :=
| covers_nil t : covers [] t
| covers_cons s ss x t : covers ss t -> covers (s :: ss) (x ++ s ++ t).

(** The sentences of a chapter, as the code finds them: the sentences of
    its paragraphs. *)
Definition chapter_sentences (chapter_text : str) : list str :=
  flat_map sentences_of (paragraphs_of chapter_text).

(** The text a loop state stands for: what was emitted, then what is
    being accumulated. *)
Definition state_text (st : list str * str) : str := concat (fst st) ++ snd st.

(** ** Counting segments *)

(** Number of non-whitespace characters. *)
Definition nonspace_count (s : str) : Z := len (nws s).

(** A list of segments that has two entries or more, or whose entries
    each hold at most [bound] non-whitespace characters. *)
Definition two_or_small (bound : Z) (l : list str) : Prop :=
  (2 <= length l)%nat \/ Forall (fun s => nonspace_count s <= bound) l.

(** Invariant of the paragraph loop in character-count mode. *)
Definition segments_inv (st : list str * str) : Prop :=
  two_or_small MAX_TOKENS (fst st) /\ nonspace_count (snd st) <= MAX_TOKENS.

(** ** Parts of the pattern split *)

(** Put [a] in front of the first part. *)
Definition cons_head (a : str) (l : list str) : list str :=
  match l with
  | p :: ps => (a ++ p) :: ps
  | [] => [a]
  end.

(** ** Greedy filling *)

(** The first word of [q] would not have fit in [p] with its words. *)
Definition would_overflow (max_size : Z) (p q : str) : Prop :=
  forall w ws,
    split_ws q = w :: ws -> max_size < sum_len (split_ws p) + len w.

(** Each entry was closed because the first word of the next did not
    fit. *)
Fixpoint greedy (max_size : Z) (l : list str) : Prop :=
  match l with
  | [] => True
  | p :: tl =>
      match tl with
      | [] => True
      | q :: _ => would_overflow max_size p q /\ greedy max_size tl
      end
  end.

(** ** Counting sub-chunks *)

(** Number of sub-chunks a state of the sentence loop stands for: those
    emitted, and the one being filled if it is not empty. *)
Definition pending (st : list str * str) : nat :=
  (length (fst st) + if truthy (snd st) then 1 else 0)%nat.

(** ** The budget, whitespace aside *)

(** A segment that holds at most [MAX_TOKENS] non-whitespace characters,
    or is one single word longer than that. *)
Definition within_budget (s : str) : Prop :=
  nonspace_count s <= MAX_TOKENS \/ (is_word s /\ MAX_TOKENS < len s).

(** ** Parts of the pattern split, after the first *)

(** A heading, the text that follows it, and so on. *)
Inductive headed (isdecimal : char -> bool) : list str -> Prop :=
| headed_nil : headed isdecimal []
| headed_cons h content rest :
    is_heading isdecimal h = true -> headed isdecimal rest ->
    headed isdecimal (h :: content :: rest).

(** ** Replies of the translation service *)

(** The service answers [replies], one for each of [segments], to the
    requests numbered from [calls] on. *)
Fixpoint answers (client : nat -> str -> option str) (calls : nat)
    (segments replies : list str) : Prop :=
  match segments, replies with
  | [], [] => True
  | seg :: segments', reply :: replies' =>
      client calls seg = Some reply
      /\ answers client (S calls) segments' replies'
  | _, _ => False
  end.

(** The chapters are translated one after the other into [texts], the
    requests being numbered from [calls] on and [calls_end] of them made
    when the last chapter is done. *)
Fixpoint translated (enc : option (str -> list N))
    (client : nat -> str -> option str) (calls : nat)
    (chapters texts : list str) (calls_end : nat) : Prop :=
  match chapters, texts with
  | [], [] => calls_end = calls
  | chapter :: chapters', text :: texts' =>
      exists calls',
        translate_full_chapter enc client calls chapter = (calls', Some text)
        /\ translated enc client calls' chapters' texts' calls_end
  | _, _ => False
  end.

(** ** Paragraphs in the accumulator *)

(** The string holds a blank line. *)
Fixpoint has_blank (s : str) : bool :=
  match s with
  | [] => false
  | c :: s' =>
      match s' with
      | [] => false
      | d :: _ => ((c =? c_newline) && (d =? c_newline))%N || has_blank s'
      end
  end.

(** What [paragraphs_of] returns: no whitespace at either end, no blank
    line inside. *)
Definition is_paragraph (p : str) : Prop :=
  starts_nonspace p /\ ends_nonspace p /\ has_blank p = false.

(** Paragraphs, a blank line before each. *)
Definition tail_text (ps : list str) : str :=
  concat (map (fun p => [c_newline; c_newline] ++ p) ps).

(** The two shapes of [current_segment] while it holds the paragraphs
    [ps]: built by [+= "\n\n" + para] from the empty string, or from
    [para + "\n\n"]. *)
Definition acc_of (cur : str) (ps : list str) : Prop :=
  cur = tail_text ps
  \/ exists p rest,
       ps = p :: rest /\ cur = p ++ [c_newline; c_newline] ++ tail_text rest.

(** * Properties *)

(** ** Stripping *)

Lemma lstrip_starts_nonspace s : starts_nonspace s -> lstrip s = s.
Proof. intros (c & s' & -> & Hc). simpl. now rewrite Hc. Qed.

Lemma lstrip_cases s : lstrip s = [] \/ starts_nonspace (lstrip s).
Proof.
  induction s as [|c s IH]; simpl; [now left|].
  destruct (isspace c) eqn:Hc; [exact IH|].
  right. now exists c, s.
Qed.

Lemma rstrip_snoc s c : isspace c = false -> rstrip (s ++ [c]) = s ++ [c].
Proof.
  intros Hc. induction s as [|d s IH]; simpl.
  - now rewrite Hc.
  - rewrite IH. now destruct (s ++ [c]) eqn:E; [destruct s; discriminate|].
Qed.

Lemma rstrip_ends_nonspace s : ends_nonspace s -> rstrip s = s.
Proof. intros (s' & c & -> & Hc). now apply rstrip_snoc. Qed.

Lemma rstrip_cases s : rstrip s = [] \/ ends_nonspace (rstrip s).
Proof.
  induction s as [|c s IH]; simpl; [now left|].
  destruct (rstrip s) as [|d r] eqn:E.
  - destruct (isspace c) eqn:Hc; [now left|].
    right. now exists [], c.
  - right. destruct IH as [IH|(s' & e & IH & He)]; [discriminate|].
    exists (c :: s'), e. simpl. now rewrite IH.
Qed.

Lemma rstrip_cons_nonspace c s :
  isspace c = false -> exists r, rstrip (c :: s) = c :: r.
Proof.
  intros Hc. simpl. destruct (rstrip s) as [|d r].
  - rewrite Hc. now exists [].
  - now exists (d :: r).
Qed.

Lemma rstrip_app_nonempty a b : rstrip b <> [] -> rstrip (a ++ b) = a ++ rstrip b.
Proof.
  intros Hb. induction a as [|c a IH]; simpl; [reflexivity|].
  rewrite IH. destruct (a ++ rstrip b) eqn:E; [|reflexivity].
  apply app_eq_nil in E. tauto.
Qed.

Lemma rstrip_app_ends a b : ends_nonspace b -> rstrip (a ++ b) = a ++ b.
Proof.
  intros Hb. pose proof (rstrip_ends_nonspace _ Hb) as E.
  rewrite rstrip_app_nonempty; rewrite E; [reflexivity|].
  destruct Hb as (s' & c & -> & _). now destruct s'.
Qed.

Lemma rstrip_app_spaces a b :
  forallb isspace b = true -> rstrip (a ++ b) = rstrip a.
Proof.
  intros Hb.
  assert (Hnil : rstrip b = []).
  { induction b as [|c b IH]; simpl in *; [reflexivity|].
    apply andb_prop in Hb as [Hc Hb]. now rewrite (IH Hb), Hc. }
  induction a as [|c a IH]; simpl; [exact Hnil|]. now rewrite IH.
Qed.

Lemma lstrip_app_spaces a b :
  forallb isspace a = true -> lstrip (a ++ b) = lstrip b.
Proof.
  induction a as [|c a IH]; simpl; [reflexivity|].
  intros H. apply andb_prop in H as [Hc Ha]. rewrite Hc. now apply IH.
Qed.

Lemma starts_nonspace_app a b : starts_nonspace a -> starts_nonspace (a ++ b).
Proof. intros (c & s' & -> & Hc). now exists c, (s' ++ b). Qed.

Lemma ends_nonspace_app a b : ends_nonspace b -> ends_nonspace (a ++ b).
Proof.
  intros (s' & c & -> & Hc). exists (a ++ s'), c. now rewrite app_assoc.
Qed.

(** A stripped string is empty or has a non-space character at both ends. *)
Lemma strip_cases s :
  strip s = [] \/ (starts_nonspace (strip s) /\ ends_nonspace (strip s)).
Proof.
  unfold strip. destruct (lstrip_cases s) as [E|(c & s' & E & Hc)].
  - rewrite E. now left.
  - rewrite E. right.
    destruct (rstrip_cons_nonspace c s' Hc) as [r Er]. split.
    + rewrite Er. now exists c, r.
    + destruct (rstrip_cases (c :: s')) as [E'|H]; [congruence|exact H].
Qed.

Lemma strip_clean s : starts_nonspace s -> ends_nonspace s -> strip s = s.
Proof.
  intros Hs He. unfold strip.
  now rewrite (lstrip_starts_nonspace _ Hs), (rstrip_ends_nonspace _ He).
Qed.

Lemma strip_idempotent s : strip (strip s) = strip s.
Proof.
  destruct (strip_cases s) as [E|[Hs He]].
  - now rewrite E.
  - now apply strip_clean.
Qed.

Lemma truthy_true (s : str) : truthy s = true <-> s <> [].
Proof. destruct s; simpl; split; congruence. Qed.

Lemma truthy_false (s : str) : truthy s = false <-> s = [].
Proof. destruct s; simpl; split; congruence. Qed.

(** What the comprehension [[x.strip() for x in l if x.strip()]] keeps. *)
Lemma strip_nonempty_In l p :
  In p (strip_nonempty l) ->
  starts_nonspace p /\ ends_nonspace p /\ strip p = p.
Proof.
  unfold strip_nonempty. intros H. apply in_map_iff in H as (x & <- & Hx).
  apply filter_In in Hx as [_ Hx]. apply truthy_true in Hx.
  destruct (strip_cases x) as [E|[Hs He]]; [contradiction|].
  repeat split; auto using strip_idempotent.
Qed.

(** ** The non-whitespace content of a string *)

Lemma nws_app a b : nws (a ++ b) = nws a ++ nws b.
Proof. apply filter_app. Qed.

Lemma nws_cons_space c s : isspace c = true -> nws (c :: s) = nws s.
Proof. intros H. unfold nws, nonspace. simpl. now rewrite H. Qed.

Lemma nws_cons_nonspace c s : isspace c = false -> nws (c :: s) = c :: nws s.
Proof. intros H. unfold nws, nonspace. simpl. now rewrite H. Qed.

Lemma nws_spaces s : forallb isspace s = true -> nws s = [].
Proof.
  induction s as [|c s IH]; simpl; [reflexivity|].
  intros H. apply andb_prop in H as [Hc Hs].
  rewrite nws_cons_space by assumption. auto.
Qed.

Lemma nws_nonspaces s : forallb nonspace s = true -> nws s = s.
Proof.
  induction s as [|c s IH]; simpl; [reflexivity|].
  intros H. apply andb_prop in H as [Hc Hs].
  unfold nws. simpl. rewrite Hc. f_equal. now apply IH.
Qed.

Lemma nws_lstrip s : nws (lstrip s) = nws s.
Proof.
  induction s as [|c s IH]; simpl; [reflexivity|].
  destruct (isspace c) eqn:Hc; [|reflexivity].
  now rewrite nws_cons_space.
Qed.

Lemma nws_rstrip s : nws (rstrip s) = nws s.
Proof.
  induction s as [|c s IH]; simpl; [reflexivity|].
  destruct (rstrip s) as [|d r] eqn:E.
  - destruct (isspace c) eqn:Hc.
    + rewrite nws_cons_space by assumption. exact IH.
    + rewrite !nws_cons_nonspace by assumption. now rewrite <- IH.
  - change (nws (c :: d :: r) = nws (c :: s)).
    unfold nws in *. simpl. simpl in IH. now rewrite IH.
Qed.

Lemma nws_strip s : nws (strip s) = nws s.
Proof. unfold strip. now rewrite nws_rstrip, nws_lstrip. Qed.

Lemma concat_snoc (l : list str) (x : str) :
  concat (l ++ [x]) = concat l ++ x.
Proof. rewrite concat_app. simpl. now rewrite app_nil_r. Qed.

Lemma nws_concat (l : list str) : nws (concat l) = concat (map nws l).
Proof.
  induction l as [|x l IH]; simpl; [reflexivity|].
  now rewrite nws_app, IH.
Qed.

(** Dropping the blank entries and stripping the others loses no
    non-whitespace character. *)
Lemma nws_strip_nonempty l :
  concat (map nws (strip_nonempty l)) = concat (map nws l).
Proof.
  unfold strip_nonempty. induction l as [|x l IH]; simpl; [reflexivity|].
  destruct (truthy (strip x)) eqn:E; simpl.
  - now rewrite nws_strip, IH.
  - apply truthy_false in E. rewrite IH.
    rewrite <- (nws_strip x), E. reflexivity.
Qed.

Lemma split_blank_cons2 c d s :
  split_blank (c :: d :: s) =
  if ((c =? c_newline) && (d =? c_newline))%N then [] :: split_blank s
  else match split_blank (d :: s) with
       | p :: ps => (c :: p) :: ps
       | [] => [[c]]
       end.
Proof. reflexivity. Qed.

Lemma list_pair_ind {A : Type} (P : list A -> Prop) :
  P [] -> (forall a, P [a]) ->
  (forall a b l, P l -> P (b :: l) -> P (a :: b :: l)) ->
  forall l, P l.
Proof.
  intros H0 H1 H2 l.
  enough (P l /\ forall a, P (a :: l)) by tauto.
  induction l as [|b l [IHl IHbl]]; split; auto.
Qed.

Lemma isspace_newline c : (c =? c_newline)%N = true -> isspace c = true.
Proof. intros H. apply N.eqb_eq in H. now subst. Qed.

Lemma nws_split_blank s : concat (map nws (split_blank s)) = nws s.
Proof.
  induction s as [| a | a b l IHl IHbl] using list_pair_ind.
  - reflexivity.
  - simpl. now rewrite app_nil_r.
  - rewrite split_blank_cons2.
    destruct ((a =? c_newline) && (b =? c_newline))%N eqn:E.
    + apply andb_prop in E as [Ea Eb].
      rewrite !nws_cons_space by now apply isspace_newline.
      simpl. exact IHl.
    + destruct (split_blank (b :: l)) as [|p ps].
      * simpl in *. rewrite app_nil_r. change (a :: b :: l) with ([a] ++ b :: l).
        now rewrite nws_app, <- IHbl, app_nil_r.
      * change (a :: b :: l) with ([a] ++ b :: l).
        rewrite nws_app, <- IHbl. simpl.
        change (a :: p) with ([a] ++ p). now rewrite nws_app, app_assoc.
Qed.

Lemma nws_re_split_sentences_from skip s :
  concat (map nws (re_split_sentences_from skip s)) = nws s.
Proof.
  revert skip. induction s as [|c s IH]; intros skip; simpl; [reflexivity|].
  destruct (skip && isspace c) eqn:E.
  - apply andb_prop in E as [_ Hc]. rewrite nws_cons_space by assumption.
    apply IH.
  - destruct (is_sentence_end c).
    + simpl. rewrite IH. change (c :: s) with ([c] ++ s). now rewrite nws_app.
    + specialize (IH false).
      change (c :: s) with ([c] ++ s). rewrite nws_app, <- IH.
      destruct (re_split_sentences_from false s) as [|p ps]; simpl.
      * now rewrite app_nil_r.
      * change (c :: p) with ([c] ++ p). now rewrite nws_app, app_assoc.
Qed.

Lemma nws_sentences_of p : concat (map nws (sentences_of p)) = nws p.
Proof.
  unfold sentences_of. rewrite nws_strip_nonempty.
  apply nws_re_split_sentences_from.
Qed.

Lemma nws_paragraphs_of t : concat (map nws (paragraphs_of t)) = nws t.
Proof.
  unfold paragraphs_of. rewrite nws_strip_nonempty. apply nws_split_blank.
Qed.

(** ** Words *)

Lemma gtb_true a b : (a >? b) = true <-> b < a.
Proof. rewrite Z.gtb_ltb. apply Z.ltb_lt. Qed.

Lemma gtb_false a b : (a >? b) = false <-> a <= b.
Proof. rewrite Z.gtb_ltb. apply Z.ltb_ge. Qed.

Lemma len_nonneg s : 0 <= len s.
Proof. unfold len. lia. Qed.

Lemma len_app a b : len (a ++ b) = len a + len b.
Proof. unfold len. rewrite length_app. lia. Qed.

Lemma len_cons c s : len (c :: s) = 1 + len s.
Proof. unfold len. simpl length. lia. Qed.

Lemma sum_len_app a b : sum_len (a ++ b) = sum_len a + sum_len b.
Proof. induction a as [|w a IH]; simpl; [reflexivity|]. rewrite IH. lia. Qed.

Lemma sum_len_concat ws : sum_len ws = len (concat ws).
Proof.
  induction ws as [|w ws IH]; simpl; [reflexivity|]. now rewrite len_app, IH.
Qed.

Lemma split_ws_cons2 c d s :
  split_ws (c :: d :: s) =
  if isspace c then split_ws (d :: s)
  else if isspace d then [c] :: split_ws (d :: s)
  else match split_ws (d :: s) with
       | w :: ws => (c :: w) :: ws
       | [] => [[c]]
       end.
Proof. reflexivity. Qed.

Lemma split_ws_words s : Forall is_word (split_ws s).
Proof.
  induction s as [|c s IH]; [constructor|].
  destruct s as [|d s].
  - simpl. destruct (isspace c) eqn:Hc; constructor; [|constructor].
    split; [discriminate|]. simpl. unfold nonspace. now rewrite Hc.
  - rewrite split_ws_cons2. destruct (isspace c) eqn:Hc; [exact IH|].
    assert (Hw : forall w, forallb nonspace w = true -> is_word (c :: w)).
    { intros w Hw. split; [discriminate|]. simpl. unfold nonspace at 1.
      now rewrite Hc. }
    destruct (isspace d); [constructor; auto|].
    destruct (split_ws (d :: s)) as [|w ws]; [constructor; auto|].
    inversion IH as [|? ? [_ H1] H2]; subst. constructor; auto.
Qed.

Lemma concat_split_ws s : concat (split_ws s) = nws s.
Proof.
  induction s as [|c s IH]; [reflexivity|].
  destruct s as [|d s].
  - simpl. destruct (isspace c) eqn:Hc.
    + now rewrite nws_cons_space.
    + now rewrite nws_cons_nonspace.
  - rewrite split_ws_cons2. destruct (isspace c) eqn:Hc.
    + now rewrite nws_cons_space.
    + rewrite (nws_cons_nonspace c) by assumption. rewrite <- IH.
      destruct (isspace d); [reflexivity|].
      now destruct (split_ws (d :: s)).
Qed.

Lemma is_word_nws w : is_word w -> nws w = w.
Proof. intros [_ H]. now apply nws_nonspaces. Qed.

Lemma nws_words ws : Forall is_word ws -> concat (map nws ws) = concat ws.
Proof.
  induction 1 as [|w ws Hw _ IH]; simpl; [reflexivity|].
  now rewrite IH, is_word_nws.
Qed.

Lemma nws_join ws : nws (join [c_space] ws) = concat (map nws ws).
Proof.
  induction ws as [|w ws IH]; [reflexivity|].
  destruct ws as [|w' ws].
  - simpl. now rewrite app_nil_r.
  - change (join [c_space] (w :: w' :: ws))
      with (w ++ [c_space] ++ join [c_space] (w' :: ws)).
    rewrite !nws_app, IH. reflexivity.
Qed.

Lemma len_join ws :
  len (join [c_space] ws) = sum_len ws + Z.max 0 (Z.of_nat (length ws) - 1).
Proof.
  induction ws as [|w ws IH]; [reflexivity|].
  destruct ws as [|w' ws].
  - simpl. lia.
  - change (join [c_space] (w :: w' :: ws))
      with (w ++ [c_space] ++ join [c_space] (w' :: ws)).
    rewrite !len_app, IH. change (len [c_space]) with 1.
    change (sum_len (w :: w' :: ws)) with (len w + sum_len (w' :: ws)).
    simpl length. lia.
Qed.

(** A string without whitespace is a single word. *)
Lemma split_ws_word w : is_word w -> split_ws w = [w].
Proof.
  intros [Hne Hw]. induction w as [|c w IH]; [contradiction|].
  simpl in Hw. apply andb_prop in Hw as [Hc Hw].
  unfold nonspace in Hc. apply negb_true_iff in Hc.
  destruct w as [|d w].
  - simpl. now rewrite Hc.
  - rewrite split_ws_cons2, Hc.
    assert (Hd : isspace d = false).
    { simpl in Hw. apply andb_prop in Hw as [Hd _].
      now apply negb_true_iff in Hd. }
    rewrite Hd, IH; [reflexivity|discriminate|assumption].
Qed.

(** ** Forced chunker *)

Lemma force_loop_pieces max_size words :
  Forall is_word words ->
  forall results current_tokens current_text,
    Forall (forced_piece max_size) results ->
    current_tokens = sum_len current_text ->
    Forall is_word current_text ->
    piece_words max_size current_text ->
    Forall (forced_piece max_size)
      (fst (force_loop max_size words results current_tokens current_text))
    /\ Forall is_word
         (snd (force_loop max_size words results current_tokens current_text))
    /\ piece_words max_size
         (snd (force_loop max_size words results current_tokens current_text)).
Proof.
  induction 1 as [|w words Hw _ IH]; intros results ct cx Hres Hct Hcx Hpw.
  - simpl. auto.
  - simpl. destruct (ct + len w >? max_size) eqn:E.
    + apply IH.
      * apply Forall_app. split; [assumption|].
        constructor; [|constructor]. now exists cx.
      * simpl. lia.
      * now constructor.
      * destruct (Z.ltb_spec max_size (len w)).
        -- right. right. now exists w.
        -- right. left. simpl. lia.
    + apply IH; [assumption| | |].
      * rewrite sum_len_app. simpl. lia.
      * apply Forall_app. split; [assumption|]. now constructor.
      * right. left. rewrite sum_len_app. simpl.
        apply gtb_false in E. lia.
Qed.

Lemma force_substring_chunks_pieces text max_size :
  Forall (forced_piece max_size) (force_substring_chunks text max_size).
Proof.
  unfold force_substring_chunks.
  pose proof (force_loop_pieces max_size (split_ws text) (split_ws_words text)
                [] 0 [] (Forall_nil _) eq_refl (Forall_nil _) (or_introl eq_refl))
    as (Hr & Hc & Hp).
  destruct (force_loop max_size (split_ws text) [] 0 []) as [r c].
  simpl in *. destruct (truthy_list c); [|assumption].
  apply Forall_app. split; [assumption|].
  constructor; [|constructor]. now exists c.
Qed.

(** The loop only ever appends to [results]. *)
Lemma force_loop_extends max_size words :
  forall results current_tokens current_text,
  exists more,
    fst (force_loop max_size words results current_tokens current_text)
    = results ++ more.
Proof.
  induction words as [|w words IH]; intros results ct cx; simpl.
  - exists []. now rewrite app_nil_r.
  - destruct (ct + len w >? max_size).
    + destruct (IH (results ++ [join [c_space] cx]) (len w) [w]) as [more E].
      rewrite E. exists ([join [c_space] cx] ++ more). now rewrite app_assoc.
    + apply IH.
Qed.

Lemma force_loop_current_nonempty max_size words :
  forall results current_tokens current_text,
    words <> [] \/ current_text <> [] ->
    snd (force_loop max_size words results current_tokens current_text) <> [].
Proof.
  induction words as [|w words IH]; intros results ct cx H; simpl.
  - destruct H; congruence.
  - destruct (ct + len w >? max_size); apply IH; right;
      [discriminate | now destruct cx].
Qed.

(** An oversized first word makes the first piece empty. *)
Lemma force_substring_chunks_oversized_first text max_size w ws :
  split_ws text = w :: ws -> max_size < len w ->
  exists rest, force_substring_chunks text max_size = [] :: rest.
Proof.
  intros Hsplit Hlen. unfold force_substring_chunks. rewrite Hsplit.
  simpl force_loop. replace (len w >? max_size) with true
    by (symmetry; apply gtb_true; exact Hlen).
  match goal with
  | |- context [force_loop ?m ?l ?r0 ?t ?x] =>
      destruct (force_loop_extends m l r0 t x) as [more E];
      destruct (force_loop m l r0 t x) as [r c]
  end.
  simpl in E. subst r. destruct (truthy_list c); simpl; eauto.
Qed.

(** No non-whitespace character is lost or added by the forced chunker. *)
Lemma nws_force_loop max_size words :
  forall results current_tokens current_text,
    nws (concat (fst (force_loop max_size words results current_tokens
                        current_text)))
    ++ concat (map nws (snd (force_loop max_size words results current_tokens
                               current_text)))
    = nws (concat results) ++ concat (map nws current_text)
      ++ concat (map nws words).
Proof.
  induction words as [|w words IH]; intros results ct cx; simpl.
  - now rewrite app_nil_r.
  - destruct (ct + len w >? max_size); rewrite IH.
    + rewrite concat_snoc, nws_app, nws_join. simpl.
      now rewrite app_nil_r, <- !app_assoc.
    + rewrite map_app, concat_app. simpl.
      now rewrite app_nil_r, <- !app_assoc.
Qed.

Lemma nws_force_substring_chunks text max_size :
  nws (concat (force_substring_chunks text max_size)) = nws text.
Proof.
  unfold force_substring_chunks.
  pose proof (nws_force_loop max_size (split_ws text) [] 0 []) as H.
  destruct (force_loop max_size (split_ws text) [] 0 []) as [r c].
  simpl in H.
  rewrite (nws_words (split_ws text)) in H by apply split_ws_words.
  rewrite concat_split_ws in H. rewrite <- H.
  destruct c as [|w c]; simpl truthy_list; cbv iota.
  - simpl. now rewrite app_nil_r.
  - now rewrite concat_snoc, nws_app, nws_join.
Qed.

(** ** More on stripping *)

Lemma strip_app_clean a b :
  starts_nonspace a -> ends_nonspace b -> strip (a ++ b) = a ++ b.
Proof.
  intros Ha Hb. apply strip_clean;
    [now apply starts_nonspace_app | now apply ends_nonspace_app].
Qed.

Lemma strip_spaces_left w s : forallb isspace w = true -> strip (w ++ s) = strip s.
Proof. intros H. unfold strip. now rewrite lstrip_app_spaces. Qed.

Lemma strip_spaces_right s w :
  starts_nonspace s -> forallb isspace w = true -> strip (s ++ w) = strip s.
Proof.
  intros Hs Hw. unfold strip.
  rewrite (lstrip_starts_nonspace _ (starts_nonspace_app _ w Hs)).
  rewrite (lstrip_starts_nonspace _ Hs). now apply rstrip_app_spaces.
Qed.

Lemma is_word_clean w : is_word w -> starts_nonspace w /\ ends_nonspace w.
Proof.
  intros [Hne Hw]. split.
  - destruct w as [|c w]; [contradiction|].
    simpl in Hw. apply andb_prop in Hw as [Hc _].
    exists c, w. split; [reflexivity|]. now apply negb_true_iff in Hc.
  - destruct (exists_last Hne) as (w' & c & ->).
    rewrite forallb_app in Hw. apply andb_prop in Hw as [_ Hc].
    simpl in Hc. rewrite andb_true_r in Hc.
    exists w', c. split; [reflexivity|]. now apply negb_true_iff in Hc.
Qed.

Lemma is_word_strip w : is_word w -> strip w = w.
Proof. intros H. apply is_word_clean in H as [Hs He]. now apply strip_clean. Qed.

(** ** Strings without whitespace or sentence end *)

Lemma split_blank_word w : forallb nonspace w = true -> split_blank w = [w].
Proof.
  induction w as [|c w IH]; [reflexivity|].
  intros H. simpl in H. apply andb_prop in H as [Hc Hw].
  destruct w as [|d w]; [reflexivity|].
  rewrite split_blank_cons2.
  assert (E : (c =? c_newline)%N = false).
  { destruct (c =? c_newline)%N eqn:E; [|reflexivity].
    apply isspace_newline in E. unfold nonspace in Hc. now rewrite E in Hc. }
  rewrite E. simpl andb. cbv iota. now rewrite IH.
Qed.

Lemma re_split_sentences_single s :
  forallb (fun c => negb (is_sentence_end c)) s = true ->
  re_split_sentences s = [s].
Proof.
  unfold re_split_sentences. induction s as [|c s IH]; [reflexivity|].
  intros H. simpl in H. apply andb_prop in H as [Hc Hs].
  apply negb_true_iff in Hc. simpl. rewrite Hc. now rewrite IH.
Qed.

Lemma strip_nonempty_single w : is_word w -> strip_nonempty [w] = [w].
Proof.
  intros Hw. pose proof (is_word_strip _ Hw) as E.
  unfold strip_nonempty. simpl. rewrite E.
  destruct w as [|c w]; [now destruct Hw|]. simpl. now rewrite E.
Qed.

Lemma paragraphs_of_word w : is_word w -> paragraphs_of w = [w].
Proof.
  intros Hw. unfold paragraphs_of.
  rewrite split_blank_word by apply Hw. now apply strip_nonempty_single.
Qed.

Lemma sentences_of_single w :
  is_word w -> forallb (fun c => negb (is_sentence_end c)) w = true ->
  sentences_of w = [w].
Proof.
  intros Hw Hs. unfold sentences_of.
  rewrite re_split_sentences_single by assumption.
  now apply strip_nonempty_single.
Qed.

Lemma force_substring_chunks_oversized_word w max_size :
  is_word w -> max_size < len w ->
  force_substring_chunks w max_size = [[]; w].
Proof.
  intros Hw Hlen. unfold force_substring_chunks.
  rewrite (split_ws_word _ Hw). simpl.
  now rewrite (proj2 (gtb_true _ _) Hlen).
Qed.

(** ** Paragraph splitter *)

Section SegmentationProperties.

Variable enc : option (str -> list N).

Lemma blp_step_nonempty st sentence :
  Forall (fun sc => sc <> []) (fst st) ->
  Forall (fun sc => sc <> []) (fst (blp_step enc st sentence)).
Proof.
  destruct st as [chunks cur]. unfold blp_step. simpl fst. intros H.
  destruct (count_tokens enc _ >? SUB_CHUNK_SIZE); simpl; [|assumption].
  destruct cur as [|c cur]; simpl; [assumption|].
  apply Forall_app. split; [assumption|]. now repeat constructor.
Qed.

Lemma fold_blp_step_nonempty sentences :
  forall st,
    Forall (fun sc => sc <> []) (fst st) ->
    Forall (fun sc => sc <> [])
      (fst (fold_left (blp_step enc) sentences st)).
Proof.
  induction sentences as [|s sentences IH]; intros st H; simpl; [assumption|].
  now apply IH, blp_step_nonempty.
Qed.

Lemma blp_finish_nonempty st :
  Forall (fun sc => sc <> []) (fst st) ->
  Forall (fun sc => sc <> []) (blp_finish st).
Proof.
  destruct st as [chunks cur]. simpl. intros H.
  destruct cur as [|c cur]; simpl; [assumption|].
  apply Forall_app. split; [assumption|]. now repeat constructor.
Qed.

(** C8. Every sub-chunk returned by [break_large_paragraph] is a
    non-empty string, whatever the paragraph and whichever way tokens are
    counted. *)
Theorem break_large_paragraph_nonempty paragraph :
  Forall (fun sc => sc <> []) (break_large_paragraph enc paragraph).
Proof.
  unfold break_large_paragraph.
  apply blp_finish_nonempty, fold_blp_step_nonempty. constructor.
Qed.

(** A paragraph that is one sentence comes back whole. *)
Lemma break_large_paragraph_single w :
  is_word w -> forallb (fun c => negb (is_sentence_end c)) w = true ->
  break_large_paragraph enc w = [w].
Proof.
  intros Hw Hs. unfold break_large_paragraph.
  rewrite (sentences_of_single _ Hw Hs). simpl.
  rewrite (is_word_strip _ Hw).
  assert (Ht : truthy w = true) by (apply truthy_true; apply Hw).
  destruct (count_tokens enc w >? SUB_CHUNK_SIZE); simpl; now rewrite Ht.
Qed.

(** ** Chapter segmenter *)

(** C6. A chapter whose cost is at most [MAX_TOKENS] is returned as
    exactly one segment, equal to the chapter text. *)
Theorem segment_chapter_within_budget chapter_text :
  count_tokens enc chapter_text <= MAX_TOKENS ->
  segment_chapter enc chapter_text = [chapter_text].
Proof.
  intros H. unfold segment_chapter.
  now rewrite (proj2 (Z.leb_le _ _) H).
Qed.

(** C3, as the code has it. The empty chapter text, whose cost is within
    the budget, takes the single-segment shortcut: the result is one
    segment, the empty string, not the empty list. *)
Theorem segment_chapter_empty_text :
  count_tokens enc [] <= MAX_TOKENS ->
  segment_chapter enc [] = [[]].
Proof.
  intros H. unfold segment_chapter.
  now rewrite (proj2 (Z.leb_le _ _) H).
Qed.

Lemma segment_step_accumulate segments current_segment para :
  count_tokens enc para <= MAX_TOKENS ->
  count_tokens enc (strip (current_segment ++ para)) <= MAX_TOKENS ->
  segment_step enc (segments, current_segment) para
  = (segments, current_segment ++ [c_newline; c_newline] ++ para).
Proof.
  intros Hp Hc. unfold segment_step.
  now rewrite (proj2 (gtb_false _ _) Hp), (proj2 (gtb_false _ _) Hc).
Qed.

Lemma segment_step_flush segments current_segment para :
  count_tokens enc para <= MAX_TOKENS ->
  MAX_TOKENS < count_tokens enc (strip (current_segment ++ para)) ->
  segment_step enc (segments, current_segment) para
  = (if truthy current_segment
     then segments ++ [strip current_segment]
     else segments,
     para ++ [c_newline; c_newline]).
Proof.
  intros Hp Hc. unfold segment_step.
  now rewrite (proj2 (gtb_false _ _) Hp), (proj2 (gtb_true _ _) Hc).
Qed.

Lemma blank_line_spaces : forallb isspace [c_newline; c_newline] = true.
Proof. reflexivity. Qed.

(** Three paragraphs that each fit the budget, on the strings the loop
    tests: the first two concatenated fit, and the accumulator with the
    third paragraph appended (first paragraph, blank line, second, third)
    does not.  Then there are two segments, the first two paragraphs
    joined by a blank line, and the third. *)
Lemma segment_chapter_three_paragraphs chapter_text p1 p2 p3 :
  paragraphs_of chapter_text = [p1; p2; p3] ->
  count_tokens enc p1 <= MAX_TOKENS ->
  count_tokens enc p2 <= MAX_TOKENS ->
  count_tokens enc p3 <= MAX_TOKENS ->
  count_tokens enc (p1 ++ p2) <= MAX_TOKENS ->
  MAX_TOKENS < count_tokens enc chapter_text ->
  MAX_TOKENS < count_tokens enc (p1 ++ [c_newline; c_newline] ++ p2 ++ p3) ->
  segment_chapter enc chapter_text = [p1 ++ [c_newline; c_newline] ++ p2; p3].
Proof.
  intros Hpar H1 H2 H3 H12 Hch H123.
  assert (Hin : forall p, In p [p1; p2; p3] ->
                  starts_nonspace p /\ ends_nonspace p /\ strip p = p).
  { intros p Hp. apply (strip_nonempty_In (split_blank chapter_text)).
    fold (paragraphs_of chapter_text). now rewrite Hpar. }
  destruct (Hin p1) as (S1 & E1 & C1); [simpl; auto|].
  destruct (Hin p2) as (S2 & E2 & C2); [simpl; auto|].
  destruct (Hin p3) as (S3 & E3 & C3); [simpl; auto|].
  pose proof blank_line_spaces as Hbl.
  assert (Hc2 : strip (([] ++ [c_newline; c_newline] ++ p1) ++ p2) = p1 ++ p2).
  { change (([] ++ [c_newline; c_newline] ++ p1) ++ p2)
      with ([c_newline; c_newline] ++ (p1 ++ p2)).
    rewrite strip_spaces_left by assumption. now apply strip_app_clean. }
  assert (Hs12 : strip (([] ++ [c_newline; c_newline] ++ p1)
                        ++ [c_newline; c_newline] ++ p2)
                 = p1 ++ [c_newline; c_newline] ++ p2).
  { change (([] ++ [c_newline; c_newline] ++ p1)
            ++ [c_newline; c_newline] ++ p2)
      with ([c_newline; c_newline] ++ (p1 ++ [c_newline; c_newline] ++ p2)).
    rewrite strip_spaces_left by assumption.
    apply strip_app_clean; [assumption|]. now apply ends_nonspace_app. }
  assert (Hc3 : strip ((([] ++ [c_newline; c_newline] ++ p1)
                        ++ [c_newline; c_newline] ++ p2) ++ p3)
                = p1 ++ [c_newline; c_newline] ++ p2 ++ p3).
  { change ((([] ++ [c_newline; c_newline] ++ p1)
             ++ [c_newline; c_newline] ++ p2) ++ p3)
      with ([c_newline; c_newline]
            ++ ((p1 ++ [c_newline; c_newline] ++ p2) ++ p3)).
    rewrite strip_spaces_left by assumption.
    rewrite <- app_assoc.
    change (([c_newline; c_newline] ++ p2) ++ p3)
      with ([c_newline; c_newline] ++ p2 ++ p3).
    apply strip_app_clean; [assumption|].
    now apply ends_nonspace_app, ends_nonspace_app. }
  assert (Ht2 : truthy (([] ++ [c_newline; c_newline] ++ p1)
                        ++ [c_newline; c_newline] ++ p2) = true)
    by reflexivity.
  assert (Ht3 : truthy (p3 ++ [c_newline; c_newline]) = true).
  { destruct S3 as (c & s' & -> & _). reflexivity. }
  unfold segment_chapter.
  rewrite (proj2 (Z.leb_gt _ _) Hch), Hpar. cbn [fold_left].
  rewrite segment_step_accumulate;
    [|assumption|change ([] ++ p1) with p1; now rewrite C1].
  rewrite segment_step_accumulate; [|assumption|now rewrite Hc2].
  rewrite segment_step_flush; [|assumption|now rewrite Hc3].
  rewrite Ht2, Hs12. unfold segment_finish.
  rewrite Ht3, strip_spaces_right, C3 by assumption. reflexivity.
Qed.

(** A chapter that is one oversized word without sentence end: the
    forced chunker is reached and its empty first piece becomes a
    segment. *)
Lemma segment_chapter_oversized_word w :
  is_word w -> forallb (fun c => negb (is_sentence_end c)) w = true ->
  MAX_TOKENS < count_tokens enc w -> MAX_TOKENS < len w ->
  segment_chapter enc w = [[]; w].
Proof.
  intros Hw Hs Hcount Hlen. unfold segment_chapter.
  rewrite (proj2 (Z.leb_gt _ _) Hcount), (paragraphs_of_word _ Hw).
  cbn [fold_left]. unfold segment_step.
  rewrite (proj2 (gtb_true _ _) Hcount). simpl truthy. cbv iota.
  rewrite (break_large_paragraph_single _ Hw Hs). cbn [fold_left].
  unfold emit_subchunk. rewrite (proj2 (Z.leb_gt _ _) Hcount).
  now rewrite (force_substring_chunks_oversized_word _ _ Hw Hlen).
Qed.

End SegmentationProperties.

(** ** Coverage *)

Lemma covers_prepend x ss t : covers ss t -> covers ss (x ++ t).
Proof.
  intros H. destruct H as [t | s ss y t H]; [constructor|].
  rewrite app_assoc. now constructor.
Qed.

Lemma covers_app a b t1 t2 :
  covers a t1 -> covers b t2 -> covers (a ++ b) (t1 ++ t2).
Proof.
  intros Ha Hb. induction Ha as [t | s ss x t Ha IH]; simpl.
  - now apply covers_prepend.
  - rewrite <- !app_assoc. now constructor.
Qed.

Lemma covers_single_in x s : covers [s] (x ++ s).
Proof.
  rewrite <- (app_nil_r s) at 2. constructor. constructor.
Qed.

Lemma covers_snoc done t x s :
  covers done t -> covers (done ++ [s]) (t ++ x ++ s).
Proof. intros H. apply covers_app; [assumption | apply covers_single_in]. Qed.

Lemma covers_concat ss : covers ss (concat ss).
Proof.
  induction ss as [|s ss IH]; simpl; [constructor|].
  now apply (covers_cons s ss []).
Qed.

Lemma covers_length ss t : covers ss t -> len (concat ss) <= len t.
Proof.
  induction 1 as [t | s ss x t H IH]; simpl.
  - apply len_nonneg.
  - rewrite !len_app. pose proof (len_nonneg x). lia.
Qed.

Lemma nws_flat_map (f : str -> list str) l :
  (forall p, concat (map nws (f p)) = nws p) ->
  concat (map nws (flat_map f l)) = concat (map nws l).
Proof.
  intros Hf. induction l as [|p l IH]; simpl; [reflexivity|].
  now rewrite map_app, concat_app, Hf, IH.
Qed.

Lemma nws_chapter_sentences t :
  concat (map nws (chapter_sentences t)) = nws t.
Proof.
  unfold chapter_sentences.
  rewrite (nws_flat_map sentences_of) by apply nws_sentences_of.
  apply nws_paragraphs_of.
Qed.

Section Coverage.

Variable enc : option (str -> list N).

Lemma nws_state_flush chunks cur :
  nws (concat (if truthy cur then chunks ++ [cur] else chunks))
  = nws (state_text (chunks, cur)).
Proof.
  unfold state_text. destruct cur as [|c cur]; simpl.
  - now rewrite app_nil_r.
  - now rewrite concat_snoc.
Qed.

Lemma blp_step_covers st sentence done :
  covers done (nws (state_text st)) ->
  covers (done ++ [nws sentence])
         (nws (state_text (blp_step enc st sentence))).
Proof.
  destruct st as [chunks cur]. intros H. unfold blp_step.
  assert (Hcand :
    nws (strip (cur ++ (if truthy cur then [c_space] else []) ++ sentence))
    = nws cur ++ nws sentence).
  { rewrite nws_strip, !nws_app. now destruct (truthy cur). }
  destruct (count_tokens enc _ >? SUB_CHUNK_SIZE).
  - unfold state_text at 1. simpl fst. simpl snd.
    rewrite nws_app, nws_state_flush.
    match goal with
    | |- context [if ?b then strip (overlap_of _ ++ _) else _] => destruct b
    end.
    + rewrite nws_strip, nws_app. now apply covers_snoc.
    + rewrite Hcand. now apply covers_snoc.
  - unfold state_text in *. simpl fst in *. simpl snd in *.
    rewrite nws_app, Hcand, app_assoc, <- nws_app.
    apply (covers_snoc done _ []). assumption.
Qed.

Lemma fold_blp_step_covers sentences :
  forall st done,
    covers done (nws (state_text st)) ->
    covers (done ++ map nws sentences)
           (nws (state_text (fold_left (blp_step enc) sentences st))).
Proof.
  induction sentences as [|s sentences IH]; intros st done H; simpl.
  - now rewrite app_nil_r.
  - change (nws s :: map nws sentences) with ([nws s] ++ map nws sentences).
    rewrite app_assoc. now apply IH, blp_step_covers.
Qed.

(** The sub-chunks of a paragraph hold its sentences, in order. *)
Lemma break_large_paragraph_covers paragraph :
  covers (map nws (sentences_of paragraph))
         (nws (concat (break_large_paragraph enc paragraph))).
Proof.
  unfold break_large_paragraph.
  pose proof (fold_blp_step_covers (sentences_of paragraph) ([], []) []
                (covers_nil _)) as H.
  simpl app in H.
  destruct (fold_left (blp_step enc) (sentences_of paragraph) ([], []))
    as [chunks cur].
  unfold blp_finish. now rewrite nws_state_flush.
Qed.

Lemma nws_emit_subchunk segments sc :
  nws (concat (emit_subchunk enc segments sc))
  = nws (concat segments) ++ nws sc.
Proof.
  unfold emit_subchunk. destruct (count_tokens enc sc <=? MAX_TOKENS).
  - now rewrite concat_snoc, nws_app.
  - now rewrite concat_app, nws_app, nws_force_substring_chunks.
Qed.

Lemma nws_fold_emit_subchunk chunks :
  forall segments,
    nws (concat (fold_left (emit_subchunk enc) chunks segments))
    = nws (concat segments) ++ nws (concat chunks).
Proof.
  induction chunks as [|sc chunks IH]; intros segments; simpl.
  - now rewrite app_nil_r.
  - now rewrite IH, nws_emit_subchunk, nws_app, app_assoc.
Qed.

Lemma nws_blank_line : nws [c_newline; c_newline] = [].
Proof. reflexivity. Qed.

Lemma segment_step_covers st para done :
  covers done (nws (state_text st)) ->
  covers (done ++ map nws (sentences_of para))
         (nws (state_text (segment_step enc st para))).
Proof.
  destruct st as [segments cur]. intros H. unfold segment_step.
  assert (Hpara : covers (map nws (sentences_of para)) (nws para)).
  { rewrite <- (nws_sentences_of para). apply covers_concat. }
  pose proof (break_large_paragraph_covers para) as Hblp.
  unfold state_text in *. cbn [fst snd] in H.
  destruct (count_tokens enc para >? MAX_TOKENS).
  - destruct cur as [|c cur]; cbn [truthy fst snd];
      rewrite app_nil_r, nws_fold_emit_subchunk.
    + rewrite app_nil_r in H. now apply covers_app.
    + rewrite concat_snoc, nws_app, nws_strip, <- nws_app.
      now apply covers_app.
  - destruct (count_tokens enc (strip (cur ++ para)) >? MAX_TOKENS).
    + assert (E : nws (para ++ [c_newline; c_newline]) = nws para).
      { rewrite nws_app, nws_blank_line. apply app_nil_r. }
      destruct cur as [|c cur]; cbn [truthy fst snd]; rewrite nws_app, E.
      * rewrite app_nil_r in H. now apply covers_app.
      * rewrite concat_snoc, nws_app, nws_strip, <- nws_app.
        now apply covers_app.
    + cbn [fst snd]. rewrite !nws_app, nws_blank_line. cbn [app].
      rewrite app_assoc, <- nws_app. now apply covers_app.
Qed.

Lemma fold_segment_step_covers paragraphs :
  forall st done,
    covers done (nws (state_text st)) ->
    covers (done ++ map nws (flat_map sentences_of paragraphs))
           (nws (state_text (fold_left (segment_step enc) paragraphs st))).
Proof.
  induction paragraphs as [|p paragraphs IH]; intros st done H; simpl.
  - now rewrite app_nil_r.
  - rewrite map_app, app_assoc. now apply IH, segment_step_covers.
Qed.

Lemma nws_segment_finish st :
  nws (concat (segment_finish st)) = nws (state_text st).
Proof.
  destruct st as [segments cur]. unfold segment_finish, state_text.
  destruct cur as [|c cur]; cbn [truthy fst snd].
  - now rewrite app_nil_r.
  - now rewrite concat_snoc, !nws_app, nws_strip.
Qed.

(** The segments of a chapter hold its sentences, in order, whitespace
    aside. *)
Lemma segment_chapter_covers chapter_text :
  covers (map nws (chapter_sentences chapter_text))
         (nws (concat (segment_chapter enc chapter_text))).
Proof.
  unfold segment_chapter.
  destruct (count_tokens enc chapter_text <=? MAX_TOKENS).
  - simpl concat. rewrite app_nil_r.
    rewrite <- (nws_chapter_sentences chapter_text). apply covers_concat.
  - rewrite nws_segment_finish.
    apply (fold_segment_step_covers (paragraphs_of chapter_text) ([], []) []).
    constructor.
Qed.

(** C5. Whitespace aside, the sentences of a chapter make up the whole
    chapter, and the concatenation of its segments contains every one of
    them, each at least once and in the order of the text; what lies
    between them is the overlap that sub-chunks repeat. *)
Theorem segment_chapter_keeps_sentences chapter_text :
  concat (map nws (chapter_sentences chapter_text)) = nws chapter_text
  /\ covers (map nws (chapter_sentences chapter_text))
            (nws (concat (segment_chapter enc chapter_text))).
Proof.
  split.
  - apply nws_chapter_sentences.
  - apply segment_chapter_covers.
Qed.

End Coverage.

(** ** Number of segments, when tokens are counted as characters *)

Lemma nonspace_count_le_len s : nonspace_count s <= len s.
Proof.
  unfold nonspace_count, len, nws. pose proof (filter_length_le nonspace s). lia.
Qed.

Lemma nonspace_count_app a b :
  nonspace_count (a ++ b) = nonspace_count a + nonspace_count b.
Proof. unfold nonspace_count. now rewrite nws_app, len_app. Qed.

Lemma nonspace_count_strip s : nonspace_count (strip s) = nonspace_count s.
Proof. unfold nonspace_count. now rewrite nws_strip. Qed.

Lemma nonspace_count_join ws :
  Forall is_word ws -> nonspace_count (join [c_space] ws) = sum_len ws.
Proof.
  intros H. unfold nonspace_count.
  now rewrite nws_join, nws_words, sum_len_concat.
Qed.

Lemma two_or_small_app bound l1 l2 :
  two_or_small bound l1 -> two_or_small bound l2 ->
  two_or_small bound (l1 ++ l2).
Proof.
  unfold two_or_small. rewrite length_app.
  intros [H1|H1] [H2|H2]; try (left; lia).
  right. apply Forall_app. now split.
Qed.

Lemma two_or_small_single bound s :
  nonspace_count s <= bound -> two_or_small bound [s].
Proof. intros H. right. now repeat constructor. Qed.

Lemma two_or_small_total bound l :
  0 <= bound -> two_or_small bound l -> (length l < 2)%nat ->
  nonspace_count (concat l) <= bound.
Proof.
  intros Hb [H|H] Hlen; [lia|].
  destruct l as [|x [|y l]]; simpl in *; try lia.
  - exact Hb.
  - inversion H; subst. now rewrite app_nil_r.
Qed.

(** As long as nothing was emitted, the words being gathered fit. *)
Lemma force_loop_first max_size words :
  forall results current_tokens current_text,
    current_tokens = sum_len current_text ->
    (results = [] -> sum_len current_text <= max_size) ->
    fst (force_loop max_size words results current_tokens current_text) = [] ->
    sum_len (snd (force_loop max_size words results current_tokens
                    current_text)) <= max_size.
Proof.
  induction words as [|w words IH]; intros results ct cx Hct Hres; simpl.
  - assumption.
  - destruct (ct + len w >? max_size) eqn:E; apply IH.
    + simpl. lia.
    + intros H. now destruct results.
    + rewrite sum_len_app. simpl. lia.
    + intros H. rewrite sum_len_app. simpl. apply gtb_false in E.
      specialize (Hres H). lia.
Qed.

Lemma force_substring_chunks_two_or_small text max_size :
  0 <= max_size ->
  two_or_small max_size (force_substring_chunks text max_size).
Proof.
  intros Hmax. unfold force_substring_chunks.
  pose proof (force_loop_pieces max_size (split_ws text) (split_ws_words text)
                [] 0 [] (Forall_nil _) eq_refl (Forall_nil _) (or_introl eq_refl))
    as (_ & Hwords & _).
  pose proof (force_loop_first max_size (split_ws text) [] 0 [] eq_refl
                (fun _ => Hmax)) as Hfirst.
  pose proof (force_loop_current_nonempty max_size (split_ws text) [] 0 [])
    as Hne.
  destruct (force_loop max_size (split_ws text) [] 0 []) as [r c] eqn:E.
  simpl in *. destruct c as [|w c]; simpl truthy_list; cbv iota.
  - (* nothing gathered: no word was read *)
    destruct (split_ws text) as [|w ws].
    + simpl in E. injection E as <-. right. constructor.
    + exfalso. apply Hne; [left; discriminate|reflexivity].
  - destruct r as [|x r].
    + apply two_or_small_single.
      rewrite nonspace_count_join by assumption. now apply Hfirst.
    + left. rewrite length_app. simpl. lia.
Qed.

Lemma MAX_TOKENS_nonneg : 0 <= MAX_TOKENS.
Proof. unfold MAX_TOKENS. lia. Qed.

Lemma emit_subchunk_two_or_small segments sc :
  two_or_small MAX_TOKENS segments ->
  two_or_small MAX_TOKENS (emit_subchunk None segments sc).
Proof.
  intros H. unfold emit_subchunk. simpl count_tokens.
  destruct (len sc <=? MAX_TOKENS) eqn:E; apply two_or_small_app; auto.
  - apply two_or_small_single. apply Z.leb_le in E.
    pose proof (nonspace_count_le_len sc). lia.
  - apply force_substring_chunks_two_or_small, MAX_TOKENS_nonneg.
Qed.

Lemma fold_emit_subchunk_two_or_small chunks :
  forall segments,
    two_or_small MAX_TOKENS segments ->
    two_or_small MAX_TOKENS (fold_left (emit_subchunk None) chunks segments).
Proof.
  induction chunks as [|sc chunks IH]; intros segments H; simpl; auto.
  now apply IH, emit_subchunk_two_or_small.
Qed.

Lemma flush_two_or_small segments cur :
  segments_inv (segments, cur) ->
  two_or_small MAX_TOKENS
    (if truthy cur then segments ++ [strip cur] else segments).
Proof.
  intros [Hs Hc]. simpl in *. destruct cur as [|c cur]; simpl truthy; cbv iota.
  - assumption.
  - apply two_or_small_app; [assumption|].
    apply two_or_small_single. now rewrite nonspace_count_strip.
Qed.

Lemma segment_step_inv st para :
  segments_inv st -> segments_inv (segment_step None st para).
Proof.
  destruct st as [segments cur]. intros Hinv.
  pose proof (flush_two_or_small _ _ Hinv) as Hflush.
  destruct Hinv as [Hs Hc]. simpl in Hs, Hc.
  unfold segment_step. simpl count_tokens.
  destruct (len para >? MAX_TOKENS) eqn:Epara.
  - destruct cur as [|c cur]; cbn [truthy] in *; split; cbn [fst snd];
      try (apply fold_emit_subchunk_two_or_small; assumption);
      apply MAX_TOKENS_nonneg.
  - apply gtb_false in Epara.
    destruct (len (strip (cur ++ para)) >? MAX_TOKENS) eqn:Ecand.
    + split; cbn [fst snd]; [assumption|].
      rewrite nonspace_count_app.
      pose proof (nonspace_count_le_len para).
      change (nonspace_count [c_newline; c_newline]) with 0. lia.
    + apply gtb_false in Ecand. split; cbn [fst snd]; [assumption|].
      pose proof (nonspace_count_le_len (strip (cur ++ para))) as Hle.
      rewrite nonspace_count_strip, nonspace_count_app in Hle.
      rewrite !nonspace_count_app.
      change (nonspace_count [c_newline; c_newline]) with 0. lia.
Qed.

Lemma fold_segment_step_inv paragraphs :
  forall st,
    segments_inv st ->
    segments_inv (fold_left (segment_step None) paragraphs st).
Proof.
  induction paragraphs as [|p paragraphs IH]; intros st H; simpl; auto.
  now apply IH, segment_step_inv.
Qed.

Lemma segment_finish_two_or_small st :
  segments_inv st -> two_or_small MAX_TOKENS (segment_finish st).
Proof. destruct st as [segments cur]. apply flush_two_or_small. Qed.

(** C2, as the code has it. With tokens counted as characters, a chapter
    that holds more than [MAX_TOKENS] non-whitespace characters is cut
    into two segments or more. *)
Theorem segment_chapter_splits chapter_text :
  MAX_TOKENS < nonspace_count chapter_text ->
  (2 <= length (segment_chapter None chapter_text))%nat.
Proof.
  intros Hbig.
  destruct (le_lt_dec 2 (length (segment_chapter None chapter_text)))
    as [Hlen|Hlen]; [assumption|exfalso].
  pose proof (covers_length _ _ (segment_chapter_covers None chapter_text))
    as Hcov.
  rewrite nws_chapter_sentences in Hcov.
  fold (nonspace_count chapter_text) in Hcov.
  fold (nonspace_count (concat (segment_chapter None chapter_text))) in Hcov.
  enough (nonspace_count (concat (segment_chapter None chapter_text))
          <= MAX_TOKENS) by lia.
  apply two_or_small_total; [apply MAX_TOKENS_nonneg| |assumption].
  unfold segment_chapter. simpl count_tokens.
  pose proof (nonspace_count_le_len chapter_text).
  rewrite (proj2 (Z.leb_gt _ _)) by lia.
  apply segment_finish_two_or_small, fold_segment_step_inv.
  split; simpl; [right; constructor | apply MAX_TOKENS_nonneg].
Qed.

(** ** Forced chunker: what a piece is *)

(** C4, as the code has it. Every piece is the join by single spaces of
    words whose lengths, the joining spaces not counted, sum to at most
    the bound, or is one word longer than the bound, alone, or is the
    empty piece.  Counted in characters the piece costs the lengths of
    its words plus one per joining space, which can exceed the bound. *)
Theorem force_substring_chunks_piece text max_size piece :
  In piece (force_substring_chunks text max_size) ->
  exists ws,
    piece = join [c_space] ws
    /\ Forall is_word ws
    /\ (ws = [] \/ sum_len ws <= max_size
        \/ exists w, ws = [w] /\ max_size < len w)
    /\ count_tokens None piece
       = sum_len ws + Z.max 0 (Z.of_nat (length ws) - 1).
Proof.
  intros Hin.
  pose proof (force_substring_chunks_pieces text max_size) as H.
  rewrite Forall_forall in H. destruct (H piece Hin) as (ws & -> & Hw & Hp).
  exists ws. repeat split; try assumption. apply len_join.
Qed.

(** C10, as the code has it. When the first word of the text is longer
    than the bound, the first piece of the forced chunker is the empty
    string; so a chapter over the budget that is a single word without
    sentence end comes back as an empty segment followed by the chapter. *)
Theorem force_substring_chunks_empty_first_piece :
  (forall text max_size w ws,
      split_ws text = w :: ws ->
      max_size < count_tokens None w ->
      exists rest, force_substring_chunks text max_size = [] :: rest)
  /\ (forall enc chapter_text,
         is_word chapter_text ->
         forallb (fun c => negb (is_sentence_end c)) chapter_text = true ->
         MAX_TOKENS < count_tokens enc chapter_text ->
         MAX_TOKENS < len chapter_text ->
         segment_chapter enc chapter_text = [[]; chapter_text]).
Proof.
  split.
  - intros text max_size w ws Hsplit Hlen.
    now apply (force_substring_chunks_oversized_first text max_size w ws).
  - intros enc chapter_text. apply segment_chapter_oversized_word.
Qed.

(** ** Chapter splitter *)

Lemma forallb_rev {A : Type} (f : A -> bool) (l : list A) :
  forallb f (rev l) = forallb f l.
Proof.
  induction l as [|x l IH]; simpl; [reflexivity|].
  rewrite forallb_app, IH. simpl. rewrite andb_true_r. apply andb_comm.
Qed.

Section ChapterProperties.

Variable isdecimal : char -> bool.

Lemma is_heading_intro mid :
  mid <> [] -> forallb (heading_class isdecimal) mid = true ->
  is_heading isdecimal (c_di :: mid ++ [c_hui]) = true.
Proof.
  intros Hne Hmid. unfold is_heading.
  rewrite N.eqb_refl, rev_app_distr. simpl.
  rewrite forallb_rev, Hmid.
  destruct (rev mid) eqn:E; [|reflexivity].
  apply (f_equal (@rev char)) in E. rewrite rev_involutive in E. contradiction.
Qed.

Lemma is_heading_elim h :
  is_heading isdecimal h = true ->
  exists mid, h = c_di :: mid ++ [c_hui] /\ mid <> []
              /\ forallb (heading_class isdecimal) mid = true.
Proof.
  unfold is_heading. destruct h as [|c rest]; [discriminate|].
  intros H. apply andb_prop in H as [Hc H]. apply N.eqb_eq in Hc. subst c.
  destruct (rev rest) as [|l mid] eqn:E; [discriminate|].
  apply andb_prop in H as [H Hall]. apply andb_prop in H as [Hl Hne].
  apply N.eqb_eq in Hl. subst l.
  exists (rev mid). repeat split.
  - apply (f_equal (@rev char)) in E. rewrite rev_involutive in E.
    now rewrite E.
  - intros Hn. apply (f_equal (@rev char)) in Hn.
    rewrite rev_involutive in Hn. now subst mid.
  - now rewrite forallb_rev.
Qed.

Lemma heading_occurrences_spec s i n :
  In (i, n) (heading_occurrences isdecimal s) <->
  (i < length s /\ 1 <= n <= length s - i)%nat
  /\ is_heading isdecimal (substr i n s) = true.
Proof.
  unfold heading_occurrences. rewrite in_flat_map. split.
  - intros (j & Hj & H). apply in_map_iff in H as (m & E & Hm).
    injection E as -> ->. apply filter_In in Hm as [Hm Hh].
    apply in_seq in Hj. apply in_seq in Hm. split; [lia|assumption].
  - intros [Hr Hh]. exists i. split; [apply in_seq; lia|].
    apply in_map_iff. exists n. split; [reflexivity|].
    apply filter_In. split; [apply in_seq; lia|assumption].
Qed.

Lemma substr_app a h b : substr (length a) (length h) (a ++ h ++ b) = h.
Proof.
  unfold substr. rewrite skipn_app, skipn_all, Nat.sub_diag. simpl.
  rewrite firstn_app, firstn_all, Nat.sub_diag. simpl. apply app_nil_r.
Qed.

Lemma heading_occurrences_intro a h b :
  is_heading isdecimal h = true ->
  In (length a, length h) (heading_occurrences isdecimal (a ++ h ++ b)).
Proof.
  intros Hh. apply heading_occurrences_spec. rewrite substr_app.
  split; [|assumption].
  apply is_heading_elim in Hh as (mid & -> & _).
  rewrite !length_app. simpl. lia.
Qed.

Lemma run_length_firstn rest :
  forall k, (k <= run_length isdecimal rest)%nat ->
    forallb (heading_class isdecimal) (firstn k rest) = true
    /\ length (firstn k rest) = k.
Proof.
  induction rest as [|c rest IH]; intros k Hk; simpl in Hk.
  - assert (k = 0%nat) by lia. subst k. now split.
  - destruct k as [|k]; [now split|].
    destruct (heading_class isdecimal c) eqn:Hc; [|lia].
    destruct (IH k) as [Hall Hlen]; [lia|].
    simpl. rewrite Hc, Hall, Hlen. now split.
Qed.

Lemma run_length_app mid rest :
  forallb (heading_class isdecimal) mid = true ->
  run_length isdecimal (mid ++ rest)
  = (length mid + run_length isdecimal rest)%nat.
Proof.
  induction mid as [|c mid IH]; simpl; [reflexivity|].
  intros H. apply andb_prop in H as [Hc Hmid]. rewrite Hc. now rewrite IH.
Qed.

Lemma backtrack_hui_some k0 rest k :
  backtrack_hui k0 rest = Some k ->
  (1 <= k <= k0)%nat /\ nth_error rest k = Some c_hui.
Proof.
  induction k0 as [|k0 IH]; [discriminate|].
  cbn [backtrack_hui]. destruct (nth_error rest (S k0)) as [c|] eqn:E.
  - destruct (c =? c_hui)%N eqn:Ec.
    + intros H. injection H as <-. apply N.eqb_eq in Ec. subst c.
      split; [lia|assumption].
    + intros H. apply IH in H. split; [lia|tauto].
  - intros H. apply IH in H. split; [lia|tauto].
Qed.

Lemma backtrack_hui_complete rest j :
  nth_error rest j = Some c_hui ->
  forall k0, (1 <= j <= k0)%nat -> exists k, backtrack_hui k0 rest = Some k.
Proof.
  intros Hj. induction k0 as [|k0 IH]; intros Hk; [lia|].
  cbn [backtrack_hui]. destruct (nth_error rest (S k0)) as [c|] eqn:E.
  - destruct (c =? c_hui)%N eqn:Ec; [eauto|].
    apply IH. destruct (Nat.eq_dec j (S k0)) as [->|]; [|lia].
    rewrite E in Hj. injection Hj as ->. now rewrite N.eqb_refl in Ec.
  - apply IH. destruct (Nat.eq_dec j (S k0)) as [->|]; [|lia]. congruence.
Qed.

Lemma firstn_S_nth_error (l : str) :
  forall k x, nth_error l k = Some x -> firstn (S k) l = firstn k l ++ [x].
Proof.
  induction l as [|c l IH]; intros [|k] x H; try discriminate.
  - simpl in H. injection H as ->. reflexivity.
  - simpl in H. rewrite !firstn_cons, (IH k x H). reflexivity.
Qed.

(** What the matcher finds is a heading. *)
Lemma match_heading_sound s n :
  match_heading isdecimal s = Some n ->
  is_heading isdecimal (firstn n s) = true /\ (n <= length s)%nat.
Proof.
  unfold match_heading. destruct s as [|c rest]; [discriminate|].
  destruct (c =? c_di)%N eqn:Ec; [|discriminate].
  apply N.eqb_eq in Ec. subst c.
  destruct (backtrack_hui (run_length isdecimal rest) rest) as [k|] eqn:E;
    [|discriminate].
  intros H. injection H as <-.
  apply backtrack_hui_some in E as [Hk Hnth].
  destruct (run_length_firstn rest k) as [Hall Hlen]; [lia|].
  split.
  - rewrite firstn_cons, (firstn_S_nth_error _ _ _ Hnth).
    apply is_heading_intro; [|assumption].
    intros Hnil. rewrite Hnil in Hlen. simpl in Hlen. lia.
  - assert (k < length rest)%nat by (apply nth_error_Some; congruence).
    simpl. lia.
Qed.

Lemma heading_class_hui : heading_class isdecimal c_hui = true.
Proof. reflexivity. Qed.

(** Where a heading starts, the matcher finds one. *)
Lemma match_heading_complete h b :
  is_heading isdecimal h = true -> exists n, match_heading isdecimal (h ++ b) = Some n.
Proof.
  intros Hh. apply is_heading_elim in Hh as (mid & -> & Hne & Hall).
  cbn [app match_heading]. rewrite N.eqb_refl, <- app_assoc.
  destruct (backtrack_hui_complete (mid ++ [c_hui] ++ b) (length mid))
    with (k0 := run_length isdecimal (mid ++ [c_hui] ++ b)) as [k Hk].
  - rewrite nth_error_app2, Nat.sub_diag by lia. reflexivity.
  - rewrite run_length_app by assumption. cbn [app run_length].
    rewrite heading_class_hui. destruct mid; [contradiction|]. simpl. lia.
  - rewrite Hk. simpl. eauto.
Qed.

Lemma pattern_split_from_nonempty fuel s :
  pattern_split_from isdecimal fuel s <> [].
Proof.
  destruct fuel as [|fuel]; simpl; [discriminate|].
  destruct (match_heading isdecimal s); [discriminate|].
  destruct s as [|c s]; [discriminate|].
  now destruct (pattern_split_from isdecimal fuel s).
Qed.

(** Text in which no match starts goes to the current part. *)
Lemma pattern_split_from_skip a :
  forall rest fuel,
    (forall a1 a2, a = a1 ++ a2 -> a2 <> [] ->
                   match_heading isdecimal (a2 ++ rest) = None) ->
    pattern_split_from isdecimal (length a + fuel) (a ++ rest)
    = cons_head a (pattern_split_from isdecimal fuel rest).
Proof.
  induction a as [|c a IH]; intros rest fuel H.
  - simpl. pose proof (pattern_split_from_nonempty fuel rest).
    now destruct (pattern_split_from isdecimal fuel rest).
  - pose proof (H [] (c :: a) eq_refl) as Hm.
    cbn [length Nat.add app pattern_split_from] in *.
    rewrite Hm by discriminate.
    rewrite IH.
    + pose proof (pattern_split_from_nonempty fuel rest).
      now destruct (pattern_split_from isdecimal fuel rest).
    + intros a1 a2 -> Hne. now apply (H (c :: a1) a2).
Qed.

Lemma pattern_split_from_match h rest fuel :
  match_heading isdecimal (h ++ rest) = Some (length h) ->
  pattern_split_from isdecimal (S fuel) (h ++ rest)
  = [] :: h :: pattern_split_from isdecimal fuel rest.
Proof.
  intros H. cbn [pattern_split_from]. rewrite H.
  rewrite firstn_app, firstn_all, Nat.sub_diag, skipn_app, skipn_all,
    Nat.sub_diag.
  simpl. now rewrite app_nil_r.
Qed.

Lemma pattern_split_from_no_match s :
  forall fuel,
    (forall a1 a2, s = a1 ++ a2 -> match_heading isdecimal a2 = None) ->
    pattern_split_from isdecimal fuel s = [s].
Proof.
  induction s as [|c s IH]; intros [|fuel] H; try reflexivity.
  cbn [pattern_split_from]. rewrite (H [] (c :: s) eq_refl).
  rewrite IH; [reflexivity|].
  intros a1 a2 ->. now apply (H (c :: a1) a2).
Qed.

Lemma rstrip_keeps_prefix a b :
  ends_nonspace a -> exists r, rstrip (a ++ b) = a ++ r.
Proof.
  intros (a' & c & -> & Hc). rewrite <- app_assoc. simpl.
  destruct (rstrip_cons_nonspace c b Hc) as [r Hr].
  exists r. rewrite rstrip_app_nonempty; rewrite Hr;
    [now rewrite <- app_assoc | discriminate].
Qed.

Lemma is_heading_clean h :
  is_heading isdecimal h = true -> starts_nonspace h /\ ends_nonspace h.
Proof.
  intros H. apply is_heading_elim in H as (mid & -> & _). split.
  - now exists c_di, (mid ++ [c_hui]).
  - now exists (c_di :: mid), c_hui.
Qed.

(** A chapter text starts with its heading. *)
Lemma strip_heading h content :
  is_heading isdecimal h = true ->
  exists r, strip (h ++ content) = h ++ r /\ truthy (h ++ r) = true.
Proof.
  intros H. pose proof (is_heading_clean h H) as [Hs He].
  unfold strip.
  rewrite (lstrip_starts_nonspace _ (starts_nonspace_app _ content Hs)).
  destruct (rstrip_keeps_prefix h content He) as [r Hr].
  exists r. split; [assumption|].
  destruct Hs as (c & s' & -> & _). reflexivity.
Qed.

Lemma is_heading_length h : is_heading isdecimal h = true -> (3 <= length h)%nat.
Proof.
  intros H. apply is_heading_elim in H as (mid & -> & Hne & _).
  destruct mid; [contradiction|]. simpl. rewrite length_app. simpl. lia.
Qed.

(** Every match the search can find in a text is one of its heading
    occurrences. *)
Lemma match_heading_occurrence a s n :
  match_heading isdecimal s = Some n ->
  In (length a, n) (heading_occurrences isdecimal (a ++ s)).
Proof.
  intros H. apply match_heading_sound in H as [Hh Hn].
  pose proof (heading_occurrences_intro a (firstn n s) (skipn n s) Hh) as Hin.
  rewrite firstn_skipn in Hin.
  now rewrite (firstn_length_le s Hn) in Hin.
Qed.

(** C9. A document with exactly two substrings that match the heading
    pattern, with text between them, gives exactly two chapters, in the
    order of the document; each is its heading followed by the text up to
    the next heading, stripped, and so starts with its heading. *)
Theorem split_text_into_chapters_two_headings pre h1 body h2 post :
  heading_occurrences isdecimal (pre ++ h1 ++ body ++ h2 ++ post)
  = [(length pre, length h1);
     ((length pre + length h1 + length body)%nat, length h2)] ->
  body <> [] ->
  split_text_into_chapters isdecimal (pre ++ h1 ++ body ++ h2 ++ post)
  = [strip (h1 ++ body); strip (h2 ++ post)]
  /\ (exists r1, strip (h1 ++ body) = h1 ++ r1)
  /\ (exists r2, strip (h2 ++ post) = h2 ++ r2).
Proof.
  intros Hocc Hbody.
  assert (Hlb : (1 <= length body)%nat) by (destruct body; [contradiction|simpl; lia]).
  assert (Hh1 : is_heading isdecimal h1 = true).
  { assert (Hin : In (length pre, length h1)
                    (heading_occurrences isdecimal (pre ++ h1 ++ body ++ h2 ++ post)))
      by (rewrite Hocc; simpl; auto).
    apply heading_occurrences_spec in Hin as [_ Hin].
    now rewrite substr_app in Hin. }
  assert (Hh2 : is_heading isdecimal h2 = true).
  { assert (Hin : In ((length pre + length h1 + length body)%nat, length h2)
                    (heading_occurrences isdecimal (pre ++ h1 ++ body ++ h2 ++ post)))
      by (rewrite Hocc; simpl; auto).
    apply heading_occurrences_spec in Hin as [_ Hin].
    replace (pre ++ h1 ++ body ++ h2 ++ post)
      with ((pre ++ h1 ++ body) ++ h2 ++ post) in Hin
      by now rewrite <- !app_assoc.
    replace (length pre + length h1 + length body)%nat
      with (length (pre ++ h1 ++ body)) in Hin
      by (rewrite !length_app; lia).
    now rewrite substr_app in Hin. }
  pose proof (is_heading_length _ Hh1) as Hl1.
  pose proof (is_heading_length _ Hh2) as Hl2.
  assert (K : forall a s n,
             pre ++ h1 ++ body ++ h2 ++ post = a ++ s ->
             match_heading isdecimal s = Some n ->
             (length a = length pre /\ n = length h1)
             \/ (length a = (length pre + length h1 + length body)%nat
                 /\ n = length h2)).
  { intros a s n E Hm. pose proof (match_heading_occurrence a s n Hm) as Hin.
    rewrite <- E, Hocc in Hin. simpl in Hin.
    destruct Hin as [Hin|[Hin|[]]]; injection Hin as <- <-; auto. }
  assert (M1 : match_heading isdecimal (h1 ++ body ++ h2 ++ post)
               = Some (length h1)).
  { destruct (match_heading_complete h1 (body ++ h2 ++ post) Hh1) as [n Hn].
    destruct (K pre _ n eq_refl Hn) as [[_ ->]|[E _]]; [assumption|lia]. }
  assert (M2 : match_heading isdecimal (h2 ++ post) = Some (length h2)).
  { destruct (match_heading_complete h2 post Hh2) as [n Hn].
    destruct (K (pre ++ h1 ++ body) (h2 ++ post) n) as [[E _]|[_ ->]];
      [now rewrite <- !app_assoc|assumption| |assumption].
    rewrite !length_app in E. lia. }
  assert (Npre : forall a1 a2, pre = a1 ++ a2 -> a2 <> [] ->
            match_heading isdecimal (a2 ++ h1 ++ body ++ h2 ++ post) = None).
  { intros a1 a2 -> Hne.
    destruct (match_heading isdecimal (a2 ++ h1 ++ body ++ h2 ++ post))
      as [n|] eqn:Hn; [|reflexivity].
    exfalso. destruct a2 as [|c a2]; [contradiction|].
    assert (E0 : (a1 ++ c :: a2) ++ h1 ++ body ++ h2 ++ post
                 = a1 ++ (c :: a2) ++ h1 ++ body ++ h2 ++ post)
      by now rewrite <- !app_assoc.
    destruct (K _ _ _ E0 Hn) as [[E _]|[E _]];
      rewrite !length_app in E; simpl in E; lia. }
  assert (Nbody : forall a1 a2, body = a1 ++ a2 -> a2 <> [] ->
            match_heading isdecimal (a2 ++ h2 ++ post) = None).
  { intros a1 a2 -> Hne.
    destruct (match_heading isdecimal (a2 ++ h2 ++ post))
      as [n|] eqn:Hn; [|reflexivity].
    exfalso. destruct a2 as [|c a2]; [contradiction|].
    assert (E0 : pre ++ h1 ++ (a1 ++ c :: a2) ++ h2 ++ post
                 = (pre ++ h1 ++ a1) ++ (c :: a2) ++ h2 ++ post)
      by now rewrite <- !app_assoc.
    destruct (K _ _ _ E0 Hn) as [[E _]|[E _]];
      rewrite !length_app in E; simpl in E; lia. }
  assert (Npost : forall a1 a2, post = a1 ++ a2 ->
            match_heading isdecimal a2 = None).
  { intros a1 a2 ->.
    destruct (match_heading isdecimal a2) as [n|] eqn:Hn; [|reflexivity].
    exfalso.
    assert (E0 : pre ++ h1 ++ body ++ h2 ++ a1 ++ a2
                 = (pre ++ h1 ++ body ++ h2 ++ a1) ++ a2)
      by now rewrite <- !app_assoc.
    destruct (K _ _ _ E0 Hn) as [[E _]|[E _]];
      rewrite !length_app in E; lia. }
  assert (Hsplit : pattern_split isdecimal (pre ++ h1 ++ body ++ h2 ++ post)
                   = [pre; h1; body; h2; post]).
  { unfold pattern_split.
    replace (S (length (pre ++ h1 ++ body ++ h2 ++ post)))
      with (length pre
            + S (length body
                 + S (length h1 + length h2 + length post - 1)))%nat
      by (rewrite !length_app; lia).
    rewrite pattern_split_from_skip by assumption.
    rewrite pattern_split_from_match by assumption.
    rewrite pattern_split_from_skip by assumption.
    rewrite pattern_split_from_match by assumption.
    rewrite pattern_split_from_no_match by assumption.
    simpl. now rewrite !app_nil_r. }
  destruct (strip_heading h1 body Hh1) as (r1 & E1 & T1).
  destruct (strip_heading h2 post Hh2) as (r2 & E2 & T2).
  split; [|split; eauto].
  unfold split_text_into_chapters. rewrite Hsplit. cbn [tl chapters_loop].
  rewrite E1, E2, T1, T2. reflexivity.
Qed.

End ChapterProperties.

(** * The properties on concrete texts *)

(** A short chapter: one segment. *)
Lemma segment_chapter_within_budget_short :
  count_tokens None [30701; 23567; 12290]%N <= MAX_TOKENS
  /\ segment_chapter None [30701; 23567; 12290]%N = [[30701; 23567; 12290]%N].
Proof.
  assert (H : count_tokens None [30701; 23567; 12290]%N <= MAX_TOKENS)
    by (vm_compute; discriminate).
  split; [exact H | exact (segment_chapter_within_budget None _ H)].
Defined.

(** The empty chapter in character-count mode: one empty segment. *)
Lemma segment_chapter_empty_text_chars :
  count_tokens None [] <= MAX_TOKENS /\ segment_chapter None [] = [[]].
Proof.
  assert (H : count_tokens None [] <= MAX_TOKENS) by (vm_compute; discriminate).
  split; [exact H | exact (segment_chapter_empty_text None H)].
Defined.

(** C3 fails as stated: the empty chapter does not give the empty list. *)
Lemma segment_chapter_empty_text_not_nil : segment_chapter None [] <> [].
Proof. vm_compute. discriminate. Qed.

(** C2 fails as stated: a chapter of 6001 spaces costs more than
    [MAX_TOKENS] and has no paragraph, hence no segment. *)
Lemma segment_chapter_blank_chapter :
  MAX_TOKENS < count_tokens None (times [c_space] 6001)
  /\ ~ (2 <= length (segment_chapter None (times [c_space] 6001)))%nat.
Proof.
  split; [reflexivity|].
  replace (segment_chapter None (times [c_space] 6001)) with (@nil str)
    by (vm_compute; reflexivity).
  simpl. lia.
Qed.

(** 6001 letters without whitespace: two segments or more. *)
Lemma segment_chapter_splits_letters :
  MAX_TOKENS < nonspace_count (times [97%N] 6001)
  /\ (2 <= length (segment_chapter None (times [97%N] 6001)))%nat.
Proof.
  assert (H : MAX_TOKENS < nonspace_count (times [97%N] 6001))
    by (vm_compute; reflexivity).
  split; [exact H | exact (segment_chapter_splits _ H)].
Defined.

(** C4 fails as stated: three one-letter words fit the bound 3 by their
    lengths and are joined into one piece of five characters, which is
    not a single word. *)
Lemma force_substring_chunks_spaces_uncounted :
  In [97; 32; 98; 32; 99]%N (force_substring_chunks [97; 32; 98; 32; 99]%N 3)
  /\ 3 < count_tokens None [97; 32; 98; 32; 99]%N
  /\ ~ (exists w, split_ws [97; 32; 98; 32; 99]%N = [w]
                  /\ 3 < count_tokens None w).
Proof.
  split; [left; reflexivity|]. split; [reflexivity|].
  intros (w & Hw & _). vm_compute in Hw. discriminate.
Qed.

(** The same piece, as the amended statement describes it. *)
Lemma force_substring_chunks_piece_abc :
  In [97; 32; 98; 32; 99]%N (force_substring_chunks [97; 32; 98; 32; 99]%N 3)
  /\ exists ws,
       [97; 32; 98; 32; 99]%N = join [c_space] ws
       /\ Forall is_word ws
       /\ (ws = [] \/ sum_len ws <= 3 \/ exists w, ws = [w] /\ 3 < len w)
       /\ count_tokens None [97; 32; 98; 32; 99]%N
          = sum_len ws + Z.max 0 (Z.of_nat (length ws) - 1).
Proof.
  assert (H : In [97; 32; 98; 32; 99]%N
                (force_substring_chunks [97; 32; 98; 32; 99]%N 3))
    by (left; reflexivity).
  split; [exact H | exact (force_substring_chunks_piece _ _ _ H)].
Defined.

(** Three paragraphs of 3000, 3000 and 1 characters. *)
Lemma segment_chapter_three_paragraphs_letters :
  segment_chapter None
    (times [97%N] 3000 ++ [c_newline; c_newline] ++ times [98%N] 3000
     ++ [c_newline; c_newline] ++ [99%N])
  = [times [97%N] 3000 ++ [c_newline; c_newline] ++ times [98%N] 3000;
     [99%N]].
Proof.
  apply segment_chapter_three_paragraphs.
  - vm_compute. reflexivity.
  - vm_compute. discriminate.
  - vm_compute. discriminate.
  - vm_compute. discriminate.
  - vm_compute. discriminate.
  - vm_compute. reflexivity.
  - vm_compute. reflexivity.
Defined.

(** C1 fails on a chapter of three paragraphs of 3000, 3000 and 1
    characters: its first segment, the first two paragraphs joined by a
    blank line, costs 6002, more than [MAX_TOKENS], and none of its two
    words costs more than [MAX_TOKENS].  The accumulator was tested
    without the blank line that joins the paragraphs. *)
Theorem segment_chapter_over_budget :
  let p1 := times [97%N] 3000 in
  let p2 := times [98%N] 3000 in
  let segment := p1 ++ [c_newline; c_newline] ++ p2 in
  segment_chapter None
    (p1 ++ [c_newline; c_newline] ++ p2 ++ [c_newline; c_newline] ++ [99%N])
  = [segment; [99%N]]
  /\ count_tokens None segment = 6002
  /\ MAX_TOKENS < count_tokens None segment
  /\ split_ws segment = [p1; p2]
  /\ count_tokens None p1 = 3000
  /\ count_tokens None p2 = 3000.
Proof. vm_compute. repeat split; reflexivity. Qed.

(** C7 fails on a chapter of three paragraphs of 2000, 2000 and 1997
    characters.  Each paragraph fits the budget, the first two joined by
    a blank line cost 4002, and the chapter, which is the three joined,
    costs 6001, more than [MAX_TOKENS]; yet the result is one segment,
    the whole chapter.  The third paragraph was tried on the accumulator
    without the blank line that joins it, 5999 characters, as in C1. *)
Theorem segment_chapter_three_paragraphs_merged :
  let p1 := times [97%N] 2000 in
  let p2 := times [98%N] 2000 in
  let p3 := times [99%N] 1997 in
  let chapter_text :=
    p1 ++ [c_newline; c_newline] ++ p2 ++ [c_newline; c_newline] ++ p3 in
  paragraphs_of chapter_text = [p1; p2; p3]
  /\ count_tokens None p1 <= MAX_TOKENS
  /\ count_tokens None p2 <= MAX_TOKENS
  /\ count_tokens None p3 <= MAX_TOKENS
  /\ count_tokens None (p1 ++ [c_newline; c_newline] ++ p2) <= MAX_TOKENS
  /\ MAX_TOKENS < count_tokens None chapter_text
  /\ count_tokens None chapter_text = 6001
  /\ segment_chapter None chapter_text = [chapter_text]
  /\ segment_chapter None chapter_text
     <> [p1 ++ [c_newline; c_newline] ++ p2; p3].
Proof.
  cbv zeta.
  repeat split; try (vm_compute; reflexivity); vm_compute; discriminate.
Qed.

Lemma no_empty_segment (l : list str) :
  forallb truthy l = true -> ~ In [] l.
Proof.
  intros H Hin. rewrite forallb_forall in H. now apply H in Hin.
Qed.

(** C10 fails as stated: three sentences of 2001 characters each, no
    whitespace anywhere, 6003 characters in all; the paragraph is cut at
    its sentence ends and no segment is empty. *)
Lemma segment_chapter_sentences_no_empty_segment :
  let sentence := times [30002%N] 2000 ++ [c_cjk_stop] in
  let paragraph := sentence ++ sentence ++ sentence in
  forallb nonspace paragraph = true
  /\ MAX_TOKENS < count_tokens None paragraph
  /\ ~ In [] (segment_chapter None paragraph).
Proof.
  cbv zeta. split; [vm_compute; reflexivity|].
  split; [vm_compute; reflexivity|].
  apply no_empty_segment. vm_compute. reflexivity.
Qed.

(** An oversized first word, and a chapter that is one oversized word. *)
Lemma force_substring_chunks_empty_first_piece_letters :
  (exists rest,
      force_substring_chunks [97; 98; 99; 100; 32; 101]%N 3 = [] :: rest)
  /\ segment_chapter None (times [97%N] 6001) = [[]; times [97%N] 6001].
Proof.
  destruct force_substring_chunks_empty_first_piece as [Hfirst Hword].
  split.
  - apply (Hfirst [97; 98; 99; 100; 32; 101]%N 3 [97; 98; 99; 100]%N
             [[101%N]]); reflexivity.
  - apply Hword.
    + split; [|vm_compute; reflexivity].
      intros H. apply (f_equal (@length char)) in H. vm_compute in H.
      discriminate.
    + vm_compute. reflexivity.
    + vm_compute. reflexivity.
    + vm_compute. reflexivity.
Defined.

(** 第一回甲 第二回乙: two headings, two chapters. *)
Lemma split_text_into_chapters_two_headings_short :
  split_text_into_chapters isdecimal_ascii
    ([] ++ [c_di; 19968; c_hui] ++ [30002; 32] ++ [c_di; 20108; c_hui]
        ++ [20057])%N
  = [strip ([c_di; 19968; c_hui] ++ [30002; 32])%N;
     strip ([c_di; 20108; c_hui] ++ [20057])%N]
  /\ (exists r1, strip ([c_di; 19968; c_hui] ++ [30002; 32])%N
                 = [c_di; 19968; c_hui]%N ++ r1)
  /\ (exists r2, strip ([c_di; 20108; c_hui] ++ [20057])%N
                 = [c_di; 20108; c_hui]%N ++ r2).
Proof.
  apply (split_text_into_chapters_two_headings isdecimal_ascii []
           [c_di; 19968; c_hui]%N [30002; 32]%N [c_di; 20108; c_hui]%N
           [20057]%N).
  - vm_compute. reflexivity.
  - discriminate.
Defined.

(** * Further properties *)

(** ** Forced chunker: the words of the pieces *)

Lemma split_ws_space c s : isspace c = true -> split_ws (c :: s) = split_ws s.
Proof. intros H. simpl. now rewrite H. Qed.

Lemma split_ws_word_then_space w r :
  is_word w -> split_ws (w ++ c_space :: r) = w :: split_ws r.
Proof.
  intros [Hne Hw]. induction w as [|c w IH]; [contradiction|].
  simpl in Hw. apply andb_prop in Hw as [Hc Hw].
  unfold nonspace in Hc. apply negb_true_iff in Hc.
  destruct w as [|d w].
  - cbn [app]. rewrite split_ws_cons2, Hc.
    change (isspace c_space) with true. cbv iota.
    now rewrite split_ws_space.
  - assert (Hd : isspace d = false).
    { simpl in Hw. apply andb_prop in Hw as [Hd _].
      now apply negb_true_iff in Hd. }
    change ((c :: d :: w) ++ c_space :: r)
      with (c :: d :: (w ++ c_space :: r)).
    rewrite split_ws_cons2, Hc, Hd.
    change (d :: w ++ c_space :: r) with ((d :: w) ++ c_space :: r).
    rewrite IH; [reflexivity|discriminate|assumption].
Qed.

(** Splitting a join of words gives the words back. *)
Lemma split_ws_join ws :
  Forall is_word ws -> split_ws (join [c_space] ws) = ws.
Proof.
  induction 1 as [|w ws Hw Hws IH]; [reflexivity|].
  destruct ws as [|w' ws].
  - now apply split_ws_word.
  - change (join [c_space] (w :: w' :: ws))
      with (w ++ c_space :: join [c_space] (w' :: ws)).
    now rewrite split_ws_word_then_space, IH.
Qed.

Lemma flat_map_snoc {A B : Type} (f : A -> list B) l x :
  flat_map f (l ++ [x]) = flat_map f l ++ f x.
Proof. rewrite flat_map_app. simpl. now rewrite app_nil_r. Qed.

Lemma force_loop_words max_size words :
  Forall is_word words ->
  forall results current_tokens current_text,
    Forall is_word current_text ->
    flat_map split_ws
      (fst (force_loop max_size words results current_tokens current_text))
    ++ snd (force_loop max_size words results current_tokens current_text)
    = flat_map split_ws results ++ current_text ++ words.
Proof.
  induction 1 as [|w words Hw _ IH]; intros results ct cx Hcx; simpl.
  - now rewrite app_nil_r.
  - destruct (ct + len w >? max_size).
    + rewrite IH by (constructor; [assumption|constructor]).
      now rewrite flat_map_snoc, split_ws_join, <- app_assoc.
    + rewrite IH; [now rewrite <- app_assoc|].
      apply Forall_app. split; [assumption|].
      constructor; [assumption|constructor].
Qed.

(** X1. The pieces hold the words of the text, each word once, whole and
    in order: no word is dropped, repeated, cut or moved. *)
Theorem force_substring_chunks_keeps_words text max_size :
  flat_map split_ws (force_substring_chunks text max_size) = split_ws text.
Proof.
  unfold force_substring_chunks.
  pose proof (force_loop_words max_size (split_ws text) (split_ws_words text)
                [] 0 [] (Forall_nil _)) as H.
  pose proof (force_loop_pieces max_size (split_ws text) (split_ws_words text)
                [] 0 [] (Forall_nil _) eq_refl (Forall_nil _) (or_introl eq_refl))
    as (_ & Hwords & _).
  destruct (force_loop max_size (split_ws text) [] 0 []) as [r c].
  simpl in *. destruct c as [|w c]; simpl truthy_list; cbv iota.
  - now rewrite app_nil_r in H.
  - now rewrite flat_map_snoc, split_ws_join.
Qed.

Lemma split_ws_blank s : nws s = [] -> split_ws s = [].
Proof.
  intros H. rewrite <- concat_split_ws in H.
  pose proof (split_ws_words s) as Hw.
  destruct (split_ws s) as [|w ws]; [reflexivity|].
  inversion Hw as [|? ? [Hne _] _]; subst.
  simpl in H. apply app_eq_nil in H as [H _]. contradiction.
Qed.

(** X2. A text without any word, empty or all whitespace, gives no piece
    at all. *)
Theorem force_substring_chunks_blank text max_size :
  nws text = [] -> force_substring_chunks text max_size = [].
Proof.
  intros H. unfold force_substring_chunks.
  now rewrite (split_ws_blank _ H).
Qed.

Lemma sum_len_nonneg ws : 0 <= sum_len ws.
Proof.
  induction ws as [|w ws IH]; simpl; [lia|]. pose proof (len_nonneg w). lia.
Qed.

Lemma force_loop_fits max_size words :
  forall results current_tokens current_text,
    current_tokens = sum_len current_text ->
    sum_len current_text + sum_len words <= max_size ->
    force_loop max_size words results current_tokens current_text
    = (results, current_text ++ words).
Proof.
  induction words as [|w words IH]; intros results ct cx Hct Hfit; simpl.
  - now rewrite app_nil_r.
  - simpl in Hfit. pose proof (sum_len_nonneg words).
    rewrite (proj2 (gtb_false _ _)) by lia.
    rewrite IH.
    + now rewrite <- app_assoc.
    + rewrite sum_len_app. simpl. lia.
    + rewrite sum_len_app. simpl. lia.
Qed.

(** X3. When the words of the text fit the bound together, the result is
    one piece: the words joined by single spaces. *)
Theorem force_substring_chunks_fits text max_size :
  split_ws text <> [] ->
  sum_len (split_ws text) <= max_size ->
  force_substring_chunks text max_size = [join [c_space] (split_ws text)].
Proof.
  intros Hne Hfit. unfold force_substring_chunks.
  rewrite force_loop_fits by (simpl; auto; lia).
  simpl app. now destruct (split_ws text).
Qed.

Lemma join_nonempty ws : Forall is_word ws -> ws <> [] -> join [c_space] ws <> [].
Proof.
  intros Hw Hne. destruct ws as [|w ws]; [contradiction|].
  inversion Hw as [|? ? [Hw1 _] _]; subst.
  destruct w as [|c w]; [contradiction|]. now destruct ws.
Qed.

(** After the first word, every piece the loop emits has a word in it. *)
Lemma force_loop_later_pieces max_size words :
  Forall is_word words ->
  forall results current_tokens current_text,
    Forall is_word current_text -> current_text <> [] ->
    exists more,
      fst (force_loop max_size words results current_tokens current_text)
      = results ++ more
      /\ Forall (fun q => q <> []) more
      /\ Forall is_word
           (snd (force_loop max_size words results current_tokens
                   current_text))
      /\ snd (force_loop max_size words results current_tokens current_text)
         <> [].
Proof.
  induction 1 as [|w words Hw _ IH]; intros results ct cx Hcx Hne; simpl.
  - exists []. rewrite app_nil_r. auto.
  - destruct (ct + len w >? max_size).
    + destruct (IH (results ++ [join [c_space] cx]) (len w) [w])
        as (more & E & Hmore & Hc);
        [constructor; [assumption|constructor] | discriminate |].
      exists (join [c_space] cx :: more). rewrite E, <- app_assoc.
      split; [reflexivity|]. split; [|assumption].
      constructor; [now apply join_nonempty | assumption].
    + apply IH.
      * apply Forall_app. split; [assumption|].
        constructor; [assumption|constructor].
      * now destruct cx.
Qed.

(** X4. A text with at least one word gives at least one piece; the
    first piece is empty exactly when the first word is longer than the
    bound, and no later piece is empty. *)
Theorem force_substring_chunks_empty_piece text max_size w ws :
  split_ws text = w :: ws ->
  exists p rest,
    force_substring_chunks text max_size = p :: rest
    /\ (p = [] <-> max_size < len w)
    /\ Forall (fun q => q <> []) rest.
Proof.
  intros Hsplit. pose proof (split_ws_words text) as Hwords.
  rewrite Hsplit in Hwords. inversion Hwords as [|? ? Hw Hws]; subst.
  unfold force_substring_chunks. rewrite Hsplit. cbn [force_loop].
  change (0 + len w) with (len w).
  destruct (len w >? max_size) eqn:E.
  - apply gtb_true in E.
    destruct (force_loop_later_pieces max_size ws Hws
                ([] ++ [join [c_space] []]) (len w) [w])
      as (more & Er & Hmore & Hc & Hne);
      [constructor; [assumption|constructor] | discriminate |].
    destruct (force_loop max_size ws ([] ++ [join [c_space] []]) (len w) [w])
      as [r c].
    simpl in Er, Hc, Hne. subst r.
    exists [], (more ++ (if truthy_list c then [join [c_space] c] else [])).
    split; [now destruct c|]. split; [tauto|].
    apply Forall_app. split; [assumption|].
    destruct c as [|w' c]; [contradiction|]. cbn [truthy_list].
    constructor; [|constructor]. apply join_nonempty; [assumption|discriminate].
  - apply gtb_false in E.
    destruct (force_loop_later_pieces max_size ws Hws [] (len w) ([] ++ [w]))
      as (more & Er & Hmore & Hc & Hne);
      [constructor; [assumption|constructor] | discriminate |].
    destruct (force_loop max_size ws [] (len w) ([] ++ [w])) as [r c].
    simpl in Er, Hc, Hne. subst r.
    destruct c as [|w' c]; [contradiction|]. simpl truthy_list. cbv iota.
    assert (Hj : join [c_space] (w' :: c) <> [])
      by (apply join_nonempty; [assumption|discriminate]).
    destruct more as [|p more].
    + exists (join [c_space] (w' :: c)), [].
      split; [reflexivity|]. split; [|constructor].
      split; [contradiction|lia].
    + inversion Hmore; subst.
      exists p, (more ++ [join [c_space] (w' :: c)]).
      split; [reflexivity|]. split; [split; [contradiction|lia]|].
      apply Forall_app. split; [assumption|]. now constructor.
Qed.

(** ** Forced chunker: greedy filling *)

Lemma greedy_snoc max_size l x :
  greedy max_size l ->
  (forall r p, l = r ++ [p] -> would_overflow max_size p x) ->
  greedy max_size (l ++ [x]).
Proof.
  induction l as [|p tl IH]; intros Hg Hlast; [exact I|].
  destruct tl as [|q tl].
  - simpl. split; [|exact I]. now apply (Hlast []).
  - destruct Hg as [Hpq Hg].
    change (would_overflow max_size p q
            /\ greedy max_size ((q :: tl) ++ [x])).
    split; [assumption|]. apply IH; [assumption|].
    intros r p' E. apply (Hlast (p :: r)). now rewrite E.
Qed.

Lemma greedy_adjacent max_size l :
  greedy max_size l ->
  forall l1 p q l2, l = l1 ++ p :: q :: l2 -> would_overflow max_size p q.
Proof.
  intros Hg l1. revert l Hg.
  induction l1 as [|a l1 IH]; intros l Hg p q l2 ->.
  - now destruct Hg.
  - apply (IH (l1 ++ p :: q :: l2)) with (l2 := l2); [|reflexivity].
    simpl in Hg. destruct (l1 ++ p :: q :: l2) eqn:E; [exact I|tauto].
Qed.

Lemma force_loop_greedy max_size words :
  Forall is_word words ->
  forall results current_tokens current_text,
    current_tokens = sum_len current_text ->
    Forall is_word current_text ->
    greedy max_size results ->
    (forall r p, results = r ++ [p] ->
                 would_overflow max_size p (join [c_space] current_text)) ->
    (current_text = [] -> results = []) ->
    greedy max_size
      (fst (force_loop max_size words results current_tokens current_text))
    /\ (forall r p,
           fst (force_loop max_size words results current_tokens current_text)
           = r ++ [p] ->
           would_overflow max_size p
             (join [c_space]
                (snd (force_loop max_size words results current_tokens
                        current_text))))
    /\ Forall is_word
         (snd (force_loop max_size words results current_tokens current_text)).
Proof.
  induction 1 as [|w words Hw _ IH];
    intros results ct cx Hct Hcx Hg Hlink Hstart; simpl.
  - auto.
  - destruct (ct + len w >? max_size) eqn:E.
    + apply gtb_true in E. apply IH.
      * simpl. lia.
      * constructor; [assumption|constructor].
      * now apply greedy_snoc.
      * intros r p Er. apply app_inj_tail in Er as [_ <-].
        intros w0 ws0 Hs. rewrite split_ws_join by assumption.
        rewrite split_ws_join in Hs
          by (constructor; [assumption|constructor]).
        injection Hs as <- <-. subst ct. exact E.
      * discriminate.
    + apply IH.
      * rewrite sum_len_app. simpl. lia.
      * apply Forall_app. split; [assumption|].
        constructor; [assumption|constructor].
      * assumption.
      * intros r p Er w0 ws0 Hs.
        assert (Hcxw : Forall is_word (cx ++ [w]))
          by (apply Forall_app; split; [assumption|];
              constructor; [assumption|constructor]).
        rewrite split_ws_join in Hs by assumption.
        destruct cx as [|c0 cx].
        -- rewrite (Hstart eq_refl) in Er. now destruct r.
        -- simpl in Hs. injection Hs as <- _.
           apply (Hlink r p Er c0 cx). now rewrite split_ws_join.
      * intros H. now destruct cx.
Qed.

(** X5. Pieces are filled greedily: of two neighbouring pieces, the
    first word of the second would not have fit in the first, whose words
    and that word together are longer than the bound. *)
Theorem force_substring_chunks_greedy text max_size l1 p q l2 w ws :
  force_substring_chunks text max_size = l1 ++ p :: q :: l2 ->
  split_ws q = w :: ws ->
  max_size < sum_len (split_ws p) + len w.
Proof.
  intros Hres Hq.
  enough (Hg : greedy max_size (force_substring_chunks text max_size)).
  { exact (greedy_adjacent _ _ Hg l1 p q l2 Hres w ws Hq). }
  unfold force_substring_chunks.
  destruct (force_loop_greedy max_size (split_ws text) (split_ws_words text)
              [] 0 [] eq_refl (Forall_nil _) I) as (Hg & Hlink & Hc).
  - intros r p0 E. now destruct r.
  - reflexivity.
  - destruct (force_loop max_size (split_ws text) [] 0 []) as [r c].
    simpl in *. destruct (truthy_list c); [|assumption].
    now apply greedy_snoc.
Qed.

(** ** Paragraph splitter: the overlap prefix *)

Lemma overlap_loop_words rev_words :
  Forall is_word rev_words ->
  forall tokens_so_far overlap_chunk,
    tokens_so_far = sum_len (split_ws overlap_chunk) ->
    tokens_so_far <= OVERLAP_TOKENS ->
    exists taken rest,
      rev_words = taken ++ rest
      /\ split_ws (overlap_loop rev_words tokens_so_far overlap_chunk)
         = rev taken ++ split_ws overlap_chunk
      /\ sum_len (rev taken ++ split_ws overlap_chunk) <= OVERLAP_TOKENS
      /\ (forall w rest', rest = w :: rest' ->
            OVERLAP_TOKENS
            < sum_len (rev taken ++ split_ws overlap_chunk) + len w).
Proof.
  induction 1 as [|w rw Hw _ IH]; intros t ov Ht Hle.
  - exists [], []. simpl. repeat split; try lia. intros; discriminate.
  - cbn [overlap_loop]. destruct (t + len w <=? OVERLAP_TOKENS) eqn:E.
    + apply Z.leb_le in E.
      destruct (IH (t + len w) (w ++ [c_space] ++ ov))
        as (taken & rest & -> & Hs & Hsum & Hmax).
      * cbn [app]. rewrite split_ws_word_then_space by assumption.
        simpl. lia.
      * assumption.
      * cbn [app] in Hs, Hsum, Hmax.
        rewrite split_ws_word_then_space in Hs, Hsum, Hmax by assumption.
        exists (w :: taken), rest. cbn [rev]. rewrite <- !app_assoc.
        cbn [app]. auto.
    + apply Z.leb_gt in E. exists [], (w :: rw). simpl.
      repeat split; try lia. intros w0 rest' H0. injection H0 as <- _. lia.
Qed.

(** X6. The overlap prefix is made of the last words of the previous
    chunk, whole and in order; their lengths sum to at most
    [OVERLAP_TOKENS], and the word before them, if any, would not have
    fit. *)
Theorem overlap_of_last_words last_chunk :
  exists before,
    split_ws last_chunk = before ++ split_ws (overlap_of last_chunk)
    /\ sum_len (split_ws (overlap_of last_chunk)) <= OVERLAP_TOKENS
    /\ (forall before' w,
           before = before' ++ [w] ->
           OVERLAP_TOKENS
           < sum_len (split_ws (overlap_of last_chunk)) + len w).
Proof.
  unfold overlap_of.
  destruct (overlap_loop_words (rev (split_ws last_chunk))) with
    (tokens_so_far := 0) (overlap_chunk := @nil char)
    as (taken & rest & E & Hs & Hsum & Hmax).
  - apply Forall_rev, split_ws_words.
  - reflexivity.
  - unfold OVERLAP_TOKENS. lia.
  - simpl in Hs, Hsum, Hmax. rewrite app_nil_r in Hs, Hsum, Hmax.
    exists (rev rest). rewrite Hs. repeat split.
    + apply (f_equal (@rev str)) in E.
      now rewrite rev_involutive, rev_app_distr in E.
    + assumption.
    + intros before' w Hb. apply (f_equal (@rev str)) in Hb.
      rewrite rev_involutive, rev_app_distr in Hb. simpl in Hb.
      exact (Hmax w (rev before') Hb).
Qed.

(** ** Paragraph splitter: shape of the result *)

Lemma starts_nonspace_nws s : starts_nonspace s -> nws s <> [].
Proof.
  intros (c & s' & -> & Hc). now rewrite nws_cons_nonspace.
Qed.

Lemma strip_nonempty_blank l :
  concat (map nws l) = [] -> strip_nonempty l = [].
Proof.
  intros H. rewrite <- nws_strip_nonempty in H.
  destruct (strip_nonempty l) as [|s r] eqn:E; [reflexivity|].
  destruct (strip_nonempty_In l s) as (Hs & _); [rewrite E; now left|].
  apply starts_nonspace_nws in Hs. simpl in H.
  apply app_eq_nil in H as [H _]. contradiction.
Qed.

Lemma sentences_of_blank p : nws p = [] -> sentences_of p = [].
Proof.
  intros H. apply strip_nonempty_blank.
  unfold re_split_sentences. now rewrite nws_re_split_sentences_from.
Qed.

Lemma paragraphs_of_blank t : nws t = [] -> paragraphs_of t = [].
Proof.
  intros H. apply strip_nonempty_blank. now rewrite nws_split_blank.
Qed.

Lemma sentences_of_clean p :
  Forall (fun s => starts_nonspace s /\ ends_nonspace s /\ strip s = s)
    (sentences_of p).
Proof. apply Forall_forall. intros s. apply strip_nonempty_In. Qed.

Lemma paragraphs_of_clean t :
  Forall (fun s => starts_nonspace s /\ ends_nonspace s /\ strip s = s)
    (paragraphs_of t).
Proof. apply Forall_forall. intros s. apply strip_nonempty_In. Qed.

Lemma len_lstrip_le s : len (lstrip s) <= len s.
Proof.
  induction s as [|c s IH]; simpl; [lia|].
  destruct (isspace c); unfold len in *; simpl length; lia.
Qed.

Lemma len_rstrip_le s : len (rstrip s) <= len s.
Proof.
  induction s as [|c s IH]; simpl; [lia|].
  destruct (rstrip s) as [|d r].
  - destruct (isspace c); unfold len in *; simpl length in *; lia.
  - unfold len in *. simpl length in *. lia.
Qed.

Lemma len_strip_le s : len (strip s) <= len s.
Proof.
  unfold strip. pose proof (len_rstrip_le (lstrip s)).
  pose proof (len_lstrip_le s). lia.
Qed.

Section ParagraphSplitter.

Variable enc : option (str -> list N).

(** The two ways of one iteration of the sentence loop. *)
Lemma blp_step_cases (chunks : list str) (cur sentence : str) :
  let candidate :=
    strip (cur ++ (if truthy cur then [c_space] else []) ++ sentence) in
  (count_tokens enc candidate <= SUB_CHUNK_SIZE
   /\ blp_step enc (chunks, cur) sentence = (chunks, candidate))
  \/ (SUB_CHUNK_SIZE < count_tokens enc candidate
      /\ ((cur <> []
           /\ blp_step enc (chunks, cur) sentence
              = (chunks ++ [cur], strip (overlap_of cur ++ sentence)))
          \/ (cur = [] /\ chunks <> []
              /\ blp_step enc (chunks, cur) sentence
                 = (chunks,
                    strip (overlap_of (last chunks []) ++ sentence)))
          \/ (cur = [] /\ chunks = []
              /\ blp_step enc (chunks, cur) sentence
                 = ([], strip sentence)))).
Proof.
  intros candidate. unfold blp_step. fold candidate.
  destruct (count_tokens enc candidate >? SUB_CHUNK_SIZE) eqn:E.
  - apply gtb_true in E. right. split; [assumption|].
    destruct cur as [|c cur].
    + destruct chunks as [|x chunks].
      * right. right. repeat split.
      * right. left. repeat split. discriminate.
    + left. split; [discriminate|].
      cbn [truthy]. rewrite last_last.
      now destruct chunks.
  - apply gtb_false in E. left. now split.
Qed.

(** X7. A paragraph without any non-whitespace character gives no
    sub-chunk. *)
Theorem break_large_paragraph_blank paragraph :
  nws paragraph = [] -> break_large_paragraph enc paragraph = [].
Proof.
  intros H. unfold break_large_paragraph.
  now rewrite (sentences_of_blank _ H).
Qed.

Lemma blp_step_stripped st sentence :
  Forall (fun sc => strip sc = sc) (fst st) -> strip (snd st) = snd st ->
  Forall (fun sc => strip sc = sc) (fst (blp_step enc st sentence))
  /\ strip (snd (blp_step enc st sentence)) = snd (blp_step enc st sentence).
Proof.
  destruct st as [chunks cur]. intros Hch Hcur. cbn [fst snd] in Hch, Hcur.
  destruct (blp_step_cases chunks cur sentence)
    as [[_ E]|[_ [(_ & E)|[(_ & _ & E)|(_ & _ & E)]]]]; rewrite E;
    cbn [fst snd]; split; auto using strip_idempotent.
  apply Forall_app. split; [assumption|]. now constructor.
Qed.

Lemma fold_blp_step_stripped sentences :
  forall st,
    Forall (fun sc => strip sc = sc) (fst st) -> strip (snd st) = snd st ->
    Forall (fun sc => strip sc = sc)
      (blp_finish (fold_left (blp_step enc) sentences st)).
Proof.
  induction sentences as [|s sentences IH]; intros st Hch Hcur; simpl.
  - destruct st as [chunks cur]. simpl in *.
    destruct (truthy cur); [|assumption].
    apply Forall_app. split; [assumption|]. now constructor.
  - destruct (blp_step_stripped st s Hch Hcur). now apply IH.
Qed.

(** X8. No sub-chunk starts or ends with whitespace: stripping it changes
    nothing. *)
Theorem break_large_paragraph_stripped paragraph :
  Forall (fun sc => strip sc = sc) (break_large_paragraph enc paragraph).
Proof.
  unfold break_large_paragraph. apply fold_blp_step_stripped;
    [constructor | reflexivity].
Qed.

End ParagraphSplitter.

Section ParagraphSplitterCount.

Variable enc : option (str -> list N).

Lemma nws_nonempty_strip (a s : str) : nws s <> [] -> strip (a ++ s) <> [].
Proof.
  intros Hs H. apply (f_equal nws) in H. rewrite nws_strip, nws_app in H.
  apply app_eq_nil in H as [_ H]. contradiction.
Qed.

Lemma blp_step_count (st : list str * str) (sentence : str) :
  nws sentence <> [] ->
  snd (blp_step enc st sentence) <> []
  /\ (pending (blp_step enc st sentence) <= pending st + 1)%nat.
Proof.
  intros Hs. destruct st as [chunks cur]. unfold pending.
  destruct (blp_step_cases enc chunks cur sentence)
    as [[_ E]|[_ [(Hc & E)|[(Hc & _ & E)|(Hc & _ & E)]]]]; rewrite E;
    cbn [fst snd].
  - assert (Hne : strip (cur ++ (if truthy cur then [c_space] else [])
                         ++ sentence) <> []).
    { rewrite app_assoc. now apply nws_nonempty_strip. }
    split; [assumption|]. apply truthy_true in Hne. rewrite Hne.
    destruct (truthy cur); lia.
  - pose proof (nws_nonempty_strip (overlap_of cur) sentence Hs) as Hne.
    split; [assumption|]. apply truthy_true in Hne. rewrite Hne.
    apply truthy_true in Hc. rewrite Hc, length_app. simpl. lia.
  - pose proof (nws_nonempty_strip (overlap_of (last chunks [])) sentence Hs)
      as Hne.
    split; [assumption|]. apply truthy_true in Hne. rewrite Hne. subst cur.
    simpl. lia.
  - pose proof (nws_nonempty_strip [] sentence Hs) as Hne.
    split; [assumption|]. apply truthy_true in Hne. simpl in Hne.
    rewrite Hne. simpl. lia.
Qed.

Lemma fold_blp_step_count sentences :
  Forall (fun s => nws s <> []) sentences ->
  forall st,
    (pending (fold_left (blp_step enc) sentences st)
     <= pending st + length sentences)%nat
    /\ (sentences <> [] ->
        snd (fold_left (blp_step enc) sentences st) <> []).
Proof.
  induction 1 as [|s sentences Hs _ IH]; intros st; simpl.
  - split; [lia|congruence].
  - destruct (blp_step_count st s Hs) as [Hne Hle].
    destruct (IH (blp_step enc st s)) as [Hcount Hlast].
    split; [lia|]. intros _.
    destruct sentences as [|s' sentences]; [exact Hne|].
    apply Hlast. discriminate.
Qed.

Lemma length_blp_finish st : length (blp_finish st) = pending st.
Proof.
  destruct st as [chunks cur]. unfold blp_finish, pending. simpl.
  destruct (truthy cur); [rewrite length_app; simpl|]; lia.
Qed.

(** X9. A paragraph with some non-whitespace character gives at least one
    sub-chunk, and there are never more sub-chunks than sentences. *)
Theorem break_large_paragraph_count paragraph :
  nws paragraph <> [] ->
  (1 <= length (break_large_paragraph enc paragraph)
   <= length (sentences_of paragraph))%nat.
Proof.
  intros Hne. unfold break_large_paragraph. rewrite length_blp_finish.
  assert (Hs : Forall (fun s => nws s <> []) (sentences_of paragraph)).
  { eapply Forall_impl; [|apply sentences_of_clean].
    intros s (Hs & _). now apply starts_nonspace_nws. }
  destruct (fold_blp_step_count _ Hs ([], [])) as [Hcount Hlast].
  split; [|exact Hcount].
  assert (Hsent : sentences_of paragraph <> []).
  { intros E. apply Hne. rewrite <- nws_sentences_of, E. reflexivity. }
  specialize (Hlast Hsent). unfold pending. apply truthy_true in Hlast.
  rewrite Hlast. lia.
Qed.

End ParagraphSplitterCount.

(** ** Paragraph splitter, tokens counted as characters *)

Lemma overlap_loop_len rev_words :
  Forall is_word rev_words ->
  forall tokens_so_far overlap_chunk,
    len overlap_chunk <= 2 * tokens_so_far ->
    tokens_so_far <= OVERLAP_TOKENS ->
    len (overlap_loop rev_words tokens_so_far overlap_chunk)
    <= 2 * OVERLAP_TOKENS.
Proof.
  induction 1 as [|w rw Hw _ IH]; intros t ov Hlen Ht; cbn [overlap_loop].
  - lia.
  - destruct (t + len w <=? OVERLAP_TOKENS) eqn:E; [|lia].
    apply Z.leb_le in E. apply IH; [|assumption].
    rewrite !len_app. change (len [c_space]) with 1.
    assert (1 <= len w).
    { destruct Hw as [Hne _]. destruct w; [contradiction|].
      rewrite len_cons. pose proof (len_nonneg w). lia. }
    lia.
Qed.

Lemma len_overlap_of last_chunk : len (overlap_of last_chunk) <= 2 * OVERLAP_TOKENS.
Proof.
  unfold overlap_of. apply overlap_loop_len.
  - apply Forall_rev, split_ws_words.
  - unfold len. simpl length. lia.
  - unfold OVERLAP_TOKENS. lia.
Qed.

Lemma blp_step_bound (st : list str * str) (sentence : str) :
  len sentence <= SUB_CHUNK_SIZE - 2 * OVERLAP_TOKENS ->
  Forall (fun sc => count_tokens None sc <= SUB_CHUNK_SIZE) (fst st) ->
  len (snd st) <= SUB_CHUNK_SIZE ->
  Forall (fun sc => count_tokens None sc <= SUB_CHUNK_SIZE)
    (fst (blp_step None st sentence))
  /\ len (snd (blp_step None st sentence)) <= SUB_CHUNK_SIZE.
Proof.
  intros Hs. destruct st as [chunks cur]. intros Hch Hcur.
  cbn [fst snd] in Hch, Hcur.
  assert (Hov : forall x, len (strip (overlap_of x ++ sentence))
                          <= SUB_CHUNK_SIZE).
  { intros x. pose proof (len_strip_le (overlap_of x ++ sentence)) as H.
    rewrite len_app in H. pose proof (len_overlap_of x). lia. }
  destruct (blp_step_cases None chunks cur sentence)
    as [[Hfit E]|[_ [(_ & E)|[(_ & _ & E)|(_ & _ & E)]]]]; rewrite E;
    cbn [fst snd]; split; auto.
  - apply Forall_app. split; [assumption|]. now constructor.
  - pose proof (len_strip_le sentence). unfold OVERLAP_TOKENS in Hs. lia.
Qed.

Lemma fold_blp_step_bound sentences :
  Forall (fun s => len s <= SUB_CHUNK_SIZE - 2 * OVERLAP_TOKENS) sentences ->
  forall st,
    Forall (fun sc => count_tokens None sc <= SUB_CHUNK_SIZE) (fst st) ->
    len (snd st) <= SUB_CHUNK_SIZE ->
    Forall (fun sc => count_tokens None sc <= SUB_CHUNK_SIZE)
      (blp_finish (fold_left (blp_step None) sentences st)).
Proof.
  induction 1 as [|s sentences Hs _ IH]; intros st Hch Hcur; simpl.
  - destruct st as [chunks cur]. simpl in *.
    destruct (truthy cur); [|assumption].
    apply Forall_app. split; [assumption|]. now constructor.
  - destruct (blp_step_bound st s Hs Hch Hcur). now apply IH.
Qed.

(** X10. With tokens counted as characters: when no sentence of the
    paragraph is longer than [SUB_CHUNK_SIZE] less twice
    [OVERLAP_TOKENS] (2800 characters), every sub-chunk costs at most
    [SUB_CHUNK_SIZE]. *)
Theorem break_large_paragraph_within_sub_chunk_size paragraph :
  Forall (fun s => len s <= SUB_CHUNK_SIZE - 2 * OVERLAP_TOKENS)
    (sentences_of paragraph) ->
  Forall (fun sc => count_tokens None sc <= SUB_CHUNK_SIZE)
    (break_large_paragraph None paragraph).
Proof.
  intros H. unfold break_large_paragraph. apply fold_blp_step_bound.
  - assumption.
  - constructor.
  - cbn [snd]. unfold SUB_CHUNK_SIZE, len. simpl length. lia.
Qed.

Lemma join_snoc (sep : str) (l : list str) (s : str) :
  l <> [] -> join sep (l ++ [s]) = join sep l ++ sep ++ s.
Proof.
  induction l as [|x l IH]; intros Hne; [contradiction|].
  destruct l as [|y l]; [reflexivity|].
  change (join sep ((x :: y :: l) ++ [s]))
    with (x ++ sep ++ join sep ((y :: l) ++ [s])).
  rewrite IH by discriminate.
  change (join sep (x :: y :: l)) with (x ++ sep ++ join sep (y :: l)).
  now rewrite <- !app_assoc.
Qed.

Lemma join_starts_nonspace (sep : str) (l : list str) :
  l <> [] -> Forall starts_nonspace l -> starts_nonspace (join sep l).
Proof.
  intros Hne Hl. destruct l as [|x l]; [contradiction|].
  inversion Hl; subst. destruct l; [assumption|].
  now apply starts_nonspace_app.
Qed.

Lemma len_join_mono (done ss : list str) (s : str) :
  len (join [c_space] (done ++ [s]))
  <= len (join [c_space] (done ++ s :: ss)).
Proof.
  rewrite !len_join, !sum_len_app, !length_app. simpl.
  pose proof (sum_len_nonneg ss). lia.
Qed.

Lemma fold_blp_step_fits sentences :
  forall done,
    Forall (fun s => starts_nonspace s /\ ends_nonspace s /\ strip s = s)
      (done ++ sentences) ->
    len (join [c_space] (done ++ sentences)) <= SUB_CHUNK_SIZE ->
    fold_left (blp_step None) sentences ([], join [c_space] done)
    = ([], join [c_space] (done ++ sentences)).
Proof.
  induction sentences as [|s sentences IH]; intros done Hclean Hfit.
  - now rewrite app_nil_r.
  - cbn [fold_left].
    assert (Hcand :
      strip (join [c_space] done
             ++ (if truthy (join [c_space] done) then [c_space] else [])
             ++ s)
      = join [c_space] (done ++ [s])).
    { apply Forall_app in Hclean as [Hdone Hs].
      inversion Hs as [|? ? (Hs1 & Hs2 & Hs3) _]; subst.
      destruct done as [|d done]; [exact Hs3|].
      assert (Hst : starts_nonspace (join [c_space] (d :: done))).
      { apply join_starts_nonspace; [discriminate|].
        eapply Forall_impl; [|exact Hdone]. now intros x (Hx & _). }
      assert (Ht : truthy (join [c_space] (d :: done)) = true)
        by (destruct Hst as (c & r & -> & _); reflexivity).
      rewrite Ht, join_snoc by discriminate.
      apply strip_app_clean; [assumption|]. now apply ends_nonspace_app. }
    assert (Hstep : blp_step None ([], join [c_space] done) s
                    = ([], join [c_space] (done ++ [s]))).
    { unfold blp_step. rewrite Hcand. simpl count_tokens.
      pose proof (len_join_mono done sentences s).
      now rewrite (proj2 (gtb_false _ _)) by lia. }
    rewrite Hstep.
    replace (done ++ s :: sentences) with ((done ++ [s]) ++ sentences)
      in * by now rewrite <- app_assoc.
    now apply IH.
Qed.

(** X11. With tokens counted as characters: a paragraph whose sentences,
    joined by single spaces, fit [SUB_CHUNK_SIZE] comes back as one
    sub-chunk, these sentences joined by single spaces (whatever
    whitespace, if any, separated them in the paragraph). *)
Theorem break_large_paragraph_fits paragraph :
  nws paragraph <> [] ->
  len (join [c_space] (sentences_of paragraph)) <= SUB_CHUNK_SIZE ->
  break_large_paragraph None paragraph
  = [join [c_space] (sentences_of paragraph)].
Proof.
  intros Hne Hfit. unfold break_large_paragraph.
  change (@nil char) with (join [c_space] []) at 1.
  rewrite fold_blp_step_fits;
    [|apply sentences_of_clean | exact Hfit].
  cbn [app blp_finish].
  assert (Hsent : sentences_of paragraph <> []).
  { intros E. apply Hne. rewrite <- nws_sentences_of, E. reflexivity. }
  assert (Hst : starts_nonspace (join [c_space] (sentences_of paragraph))).
  { apply join_starts_nonspace; [assumption|].
    eapply Forall_impl; [|apply sentences_of_clean]. now intros x (Hx & _). }
  destruct Hst as (c & r & -> & _). reflexivity.
Qed.

(** ** Chapter segmenter: shape of the segments *)

Lemma join_ends_nonspace (sep : str) (l : list str) :
  l <> [] -> Forall ends_nonspace l -> ends_nonspace (join sep l).
Proof.
  intros Hne Hl. induction Hl as [|x l Hx Hl IH]; [contradiction|].
  destruct l as [|y l]; [assumption|].
  change (join sep (x :: y :: l)) with (x ++ sep ++ join sep (y :: l)).
  apply ends_nonspace_app, ends_nonspace_app, IH. discriminate.
Qed.

Lemma join_words_stripped ws :
  Forall is_word ws -> strip (join [c_space] ws) = join [c_space] ws.
Proof.
  intros Hw. destruct ws as [|w ws]; [reflexivity|].
  apply strip_clean.
  - apply join_starts_nonspace; [discriminate|].
    eapply Forall_impl; [|exact Hw]. intros x Hx. now apply is_word_clean.
  - apply join_ends_nonspace; [discriminate|].
    eapply Forall_impl; [|exact Hw]. intros x Hx. now apply is_word_clean.
Qed.

Lemma force_substring_chunks_stripped text max_size :
  Forall (fun s => strip s = s) (force_substring_chunks text max_size).
Proof.
  eapply Forall_impl; [|apply force_substring_chunks_pieces].
  intros s (ws & -> & Hw & _). now apply join_words_stripped.
Qed.

Section SegmenterShape.

Variable enc : option (str -> list N).

Lemma covers_nil_text ss : covers ss [] -> concat ss = [].
Proof.
  intros H. apply covers_length in H. unfold len in H. simpl in H.
  destruct (concat ss); [reflexivity|simpl in H; lia].
Qed.

(** X12. A chapter over the budget gives no segment at all exactly when
    it holds no non-whitespace character. *)
Theorem segment_chapter_nil_iff chapter_text :
  MAX_TOKENS < count_tokens enc chapter_text ->
  (segment_chapter enc chapter_text = [] <-> nws chapter_text = []).
Proof.
  intros Hbig. split.
  - intros Hnil.
    pose proof (segment_chapter_covers enc chapter_text) as H.
    rewrite Hnil in H. apply covers_nil_text in H.
    now rewrite nws_chapter_sentences in H.
  - intros Hblank. unfold segment_chapter.
    rewrite (proj2 (Z.leb_gt _ _) Hbig).
    now rewrite (paragraphs_of_blank _ Hblank).
Qed.

Lemma fold_emit_subchunk_stripped chunks :
  Forall (fun s => strip s = s) chunks ->
  forall segments,
    Forall (fun s => strip s = s) segments ->
    Forall (fun s => strip s = s)
      (fold_left (emit_subchunk enc) chunks segments).
Proof.
  induction 1 as [|sc chunks Hsc _ IH]; intros segments Hseg; simpl;
    [assumption|].
  apply IH. unfold emit_subchunk.
  destruct (count_tokens enc sc <=? MAX_TOKENS); apply Forall_app;
    (split; [assumption|]).
  - now constructor.
  - apply force_substring_chunks_stripped.
Qed.

Lemma flush_stripped (segments : list str) (cur : str) :
  Forall (fun s => strip s = s) segments ->
  Forall (fun s => strip s = s)
    (if truthy cur then segments ++ [strip cur] else segments).
Proof.
  intros H. destruct (truthy cur); [|assumption].
  apply Forall_app. split; [assumption|].
  constructor; [apply strip_idempotent|constructor].
Qed.

Lemma segment_step_stripped (st : list str * str) (para : str) :
  Forall (fun s => strip s = s) (fst st) ->
  Forall (fun s => strip s = s) (fst (segment_step enc st para)).
Proof.
  destruct st as [segments cur]. intros H. cbn [fst] in H.
  pose proof (flush_stripped segments cur H) as Hflush.
  unfold segment_step.
  destruct (count_tokens enc para >? MAX_TOKENS).
  - destruct (truthy cur); cbn [fst];
      (apply fold_emit_subchunk_stripped; [|assumption]);
      (unfold break_large_paragraph; apply fold_blp_step_stripped;
       [constructor|reflexivity]).
  - destruct (count_tokens enc (strip (cur ++ para)) >? MAX_TOKENS);
      cbn [fst]; assumption.
Qed.

Lemma fold_segment_step_stripped paragraphs :
  forall st,
    Forall (fun s => strip s = s) (fst st) ->
    Forall (fun s => strip s = s)
      (fst (fold_left (segment_step enc) paragraphs st)).
Proof.
  induction paragraphs as [|p paragraphs IH]; intros st H; simpl; auto.
  now apply IH, segment_step_stripped.
Qed.

(** X13. When the chapter is over the budget, no segment starts or ends
    with whitespace. *)
Theorem segment_chapter_stripped chapter_text :
  MAX_TOKENS < count_tokens enc chapter_text ->
  Forall (fun s => strip s = s) (segment_chapter enc chapter_text).
Proof.
  intros Hbig. unfold segment_chapter.
  rewrite (proj2 (Z.leb_gt _ _) Hbig).
  pose proof (fold_segment_step_stripped (paragraphs_of chapter_text)
                ([], []) (Forall_nil _)) as H.
  destruct (fold_left (segment_step enc) (paragraphs_of chapter_text)
              ([], [])) as [segments cur].
  unfold segment_finish. now apply flush_stripped.
Qed.

End SegmenterShape.

(** ** Chapter segmenter: the budget, tokens counted as characters *)

Lemma force_substring_chunks_within_budget text :
  Forall within_budget (force_substring_chunks text MAX_TOKENS).
Proof.
  eapply Forall_impl; [|apply force_substring_chunks_pieces].
  intros s (ws & -> & Hw & [->|[Hsum|(w & -> & Hlen)]]).
  - left. apply MAX_TOKENS_nonneg.
  - left. now rewrite nonspace_count_join.
  - right. inversion Hw; subst. now split.
Qed.

Lemma fold_emit_subchunk_within_budget chunks :
  forall segments,
    Forall within_budget segments ->
    Forall within_budget (fold_left (emit_subchunk None) chunks segments).
Proof.
  induction chunks as [|sc chunks IH]; intros segments H; simpl; auto.
  apply IH. unfold emit_subchunk. simpl count_tokens.
  destruct (len sc <=? MAX_TOKENS) eqn:E; apply Forall_app;
    (split; [assumption|]).
  - constructor; [|constructor]. left. apply Z.leb_le in E.
    pose proof (nonspace_count_le_len sc). lia.
  - apply force_substring_chunks_within_budget.
Qed.

Lemma flush_within_budget (segments : list str) (cur : str) :
  Forall within_budget segments -> nonspace_count cur <= MAX_TOKENS ->
  Forall within_budget
    (if truthy cur then segments ++ [strip cur] else segments).
Proof.
  intros H Hc. destruct (truthy cur); [|assumption].
  apply Forall_app. split; [assumption|].
  constructor; [|constructor]. left. now rewrite nonspace_count_strip.
Qed.

Lemma segment_step_within_budget (st : list str * str) (para : str) :
  Forall within_budget (fst st) -> nonspace_count (snd st) <= MAX_TOKENS ->
  Forall within_budget (fst (segment_step None st para))
  /\ nonspace_count (snd (segment_step None st para)) <= MAX_TOKENS.
Proof.
  destruct st as [segments cur]. intros Hs Hc. cbn [fst snd] in Hs, Hc.
  pose proof (flush_within_budget segments cur Hs Hc) as Hflush.
  unfold segment_step. simpl count_tokens.
  destruct (len para >? MAX_TOKENS) eqn:Epara.
  - destruct (truthy cur); cbn [fst snd]; split;
      try (apply fold_emit_subchunk_within_budget; assumption);
      try assumption; apply MAX_TOKENS_nonneg.
  - apply gtb_false in Epara.
    destruct (len (strip (cur ++ para)) >? MAX_TOKENS) eqn:Ecand;
      cbn [fst snd]; (split; [assumption|]).
    + rewrite nonspace_count_app.
      pose proof (nonspace_count_le_len para).
      change (nonspace_count [c_newline; c_newline]) with 0. lia.
    + apply gtb_false in Ecand.
      pose proof (nonspace_count_le_len (strip (cur ++ para))) as Hle.
      rewrite nonspace_count_strip, nonspace_count_app in Hle.
      rewrite !nonspace_count_app.
      change (nonspace_count [c_newline; c_newline]) with 0. lia.
Qed.

Lemma fold_segment_step_within_budget paragraphs :
  forall st,
    Forall within_budget (fst st) ->
    nonspace_count (snd st) <= MAX_TOKENS ->
    Forall within_budget (fst (fold_left (segment_step None) paragraphs st))
    /\ nonspace_count (snd (fold_left (segment_step None) paragraphs st))
       <= MAX_TOKENS.
Proof.
  induction paragraphs as [|p paragraphs IH]; intros st Hs Hc; simpl; auto.
  destruct (segment_step_within_budget st p Hs Hc). now apply IH.
Qed.

(** X14. With tokens counted as characters, every segment of every
    chapter keeps the budget as far as its non-whitespace characters go:
    it holds at most [MAX_TOKENS] of them, unless it is one single word
    longer than [MAX_TOKENS]. *)
Theorem segment_chapter_nonspace_budget chapter_text :
  Forall within_budget (segment_chapter None chapter_text).
Proof.
  unfold segment_chapter. simpl count_tokens.
  destruct (len chapter_text <=? MAX_TOKENS) eqn:E.
  - constructor; [|constructor]. left. apply Z.leb_le in E.
    pose proof (nonspace_count_le_len chapter_text). lia.
  - destruct (fold_segment_step_within_budget (paragraphs_of chapter_text)
                ([], []) (Forall_nil _) MAX_TOKENS_nonneg) as [Hs Hc].
    destruct (fold_left (segment_step None) (paragraphs_of chapter_text)
                ([], [])) as [segments cur].
    unfold segment_finish. now apply flush_within_budget.
Qed.

(** ** Chapter splitter: what the chapters hold *)

Section ChapterContent.

Variable isdecimal : char -> bool.

Lemma pattern_split_from_concat fuel :
  forall s, concat (pattern_split_from isdecimal fuel s) = s.
Proof.
  induction fuel as [|fuel IH]; intros s; cbn [pattern_split_from].
  - simpl. apply app_nil_r.
  - destruct (match_heading isdecimal s) as [n|].
    + cbn [concat app]. rewrite IH. apply firstn_skipn.
    + destruct s as [|c s]; [reflexivity|].
      specialize (IH s).
      destruct (pattern_split_from isdecimal fuel s) as [|p ps];
        simpl in *; now rewrite IH.
Qed.

(** The search from the start of a text: the text before the first
    match, in which no match starts, then the headings with the text that
    follows each. *)
Lemma pattern_split_from_first fuel :
  forall s, (length s < fuel)%nat ->
    exists pre rest parts,
      s = pre ++ rest
      /\ pattern_split_from isdecimal fuel s = pre :: parts
      /\ concat parts = rest
      /\ headed isdecimal parts
      /\ (forall a1 a2, pre = a1 ++ a2 -> a2 <> [] ->
                        match_heading isdecimal (a2 ++ rest) = None)
      /\ ((rest = [] /\ parts = [])
          \/ (exists n, match_heading isdecimal rest = Some n
                        /\ parts <> [])).
Proof.
  induction fuel as [|fuel IH]; intros s Hlen; [lia|].
  cbn [pattern_split_from].
  destruct (match_heading isdecimal s) as [n|] eqn:Hm.
  - pose proof (match_heading_sound isdecimal s n Hm) as [Hh Hn].
    assert (Hpos : (3 <= n)%nat).
    { apply is_heading_length in Hh. rewrite firstn_length_le in Hh; lia. }
    destruct (IH (skipn n s)) as (pre & rest & parts & E & Ep & Ec & Hhd & _).
    { rewrite length_skipn. lia. }
    exists [], s, (firstn n s :: pattern_split_from isdecimal fuel (skipn n s)).
    split; [reflexivity|]. split; [reflexivity|].
    split.
    { cbn [concat]. rewrite pattern_split_from_concat. apply firstn_skipn. }
    split.
    { rewrite Ep. constructor; assumption. }
    split.
    { intros a1 a2 E0 Hne. now destruct a1; destruct a2. }
    right. exists n. split; [assumption|discriminate].
  - destruct s as [|c s].
    + exists [], [], [].
      split; [reflexivity|]. split; [reflexivity|]. split; [reflexivity|].
      split; [constructor|].
      split; [|left; now split].
      intros a1 a2 E0 Hne. now destruct a1; destruct a2.
    + destruct (IH s) as (pre & rest & parts & -> & Ep & Ec & Hhd & Hno & Hr).
      { simpl in Hlen. lia. }
      rewrite Ep. exists (c :: pre), rest, parts.
      split; [reflexivity|]. split; [reflexivity|].
      split; [assumption|]. split; [assumption|]. split; [|assumption].
      intros a1 a2 E0 Hne. destruct a1 as [|a a1].
      * simpl in E0. subst a2. exact Hm.
      * injection E0 as <- E0. now apply (Hno a1 a2).
Qed.

Lemma nws_chapters_loop parts :
  nws (concat (chapters_loop parts)) = nws (concat parts).
Proof.
  induction parts as [| title | title b rest IH _] using list_pair_ind.
  - reflexivity.
  - cbn [chapters_loop concat]. rewrite !app_nil_r.
    destruct (truthy (strip title)) eqn:E; cbn [concat app].
    + now rewrite app_nil_r, nws_strip.
    + apply truthy_false in E. rewrite <- (nws_strip title), E. reflexivity.
  - cbn [chapters_loop concat].
    rewrite concat_app, !nws_app, IH.
    destruct (truthy (strip (title ++ b))) eqn:E; cbn [concat app].
    + now rewrite app_nil_r, nws_strip, nws_app, app_assoc.
    + apply truthy_false in E. apply (f_equal nws) in E.
      rewrite nws_strip, nws_app in E. now rewrite app_assoc, E.
Qed.

(** X15. The text before the first heading is left out, and nothing
    else: whitespace aside, the chapters together are the document from
    its first heading on. *)
Theorem split_text_into_chapters_content text :
  exists preamble rest,
    text = preamble ++ rest
    /\ nws (concat (split_text_into_chapters isdecimal text)) = nws rest
    /\ (forall a1 a2, preamble = a1 ++ a2 -> a2 <> [] ->
                      match_heading isdecimal (a2 ++ rest) = None)
    /\ (rest = [] \/ exists n, match_heading isdecimal rest = Some n).
Proof.
  destruct (pattern_split_from_first (S (length text)) text)
    as (pre & rest & parts & E & Ep & Ec & _ & Hno & Hr); [lia|].
  exists pre, rest. repeat split; try assumption.
  - unfold split_text_into_chapters, pattern_split. rewrite Ep. cbn [tl].
    now rewrite nws_chapters_loop, Ec.
  - destruct Hr as [[Hr _]|(n & Hn & _)]; eauto.
Qed.

Lemma chapters_loop_headed parts :
  headed isdecimal parts ->
  Forall (fun chapter =>
            exists h r, chapter = h ++ r /\ is_heading isdecimal h = true)
    (chapters_loop parts)
  /\ (parts <> [] -> chapters_loop parts <> []).
Proof.
  induction 1 as [|h content rest Hh _ [IH _]].
  - split; [constructor|congruence].
  - cbn [chapters_loop].
    destruct (strip_heading isdecimal h content Hh) as (r & E & T).
    rewrite E, T. split; [|discriminate].
    constructor; [|assumption]. now exists h, r.
Qed.

(** X16. Every chapter starts with a heading that matches the pattern;
    in particular no chapter is empty and none starts with the text that
    precedes the first heading. *)
Theorem split_text_into_chapters_headed text :
  Forall (fun chapter =>
            exists h r, chapter = h ++ r /\ is_heading isdecimal h = true)
    (split_text_into_chapters isdecimal text).
Proof.
  destruct (pattern_split_from_first (S (length text)) text)
    as (pre & rest & parts & _ & Ep & _ & Hhd & _); [lia|].
  unfold split_text_into_chapters, pattern_split. rewrite Ep. cbn [tl].
  now apply chapters_loop_headed.
Qed.

(** X17. There is no chapter exactly when no substring of the document
    matches the heading pattern: a document without headings is dropped
    whole. *)
Theorem split_text_into_chapters_nil_iff text :
  split_text_into_chapters isdecimal text = []
  <-> heading_occurrences isdecimal text = [].
Proof.
  destruct (pattern_split_from_first (S (length text)) text)
    as (pre & rest & parts & E & Ep & _ & Hhd & Hno & Hr); [lia|].
  unfold split_text_into_chapters, pattern_split. rewrite Ep. cbn [tl].
  split.
  - intros Hnil. destruct Hr as [[-> ->]|(n & Hn & Hne)].
    + destruct (heading_occurrences isdecimal text) as [|[i n] l] eqn:Eocc;
        [reflexivity|exfalso].
      assert (Hin : In (i, n) (heading_occurrences isdecimal text))
        by (rewrite Eocc; now left).
      apply heading_occurrences_spec in Hin as [[Hi Hn] Hh].
      rewrite app_nil_r in E. subst pre. unfold substr in Hh.
      destruct (match_heading_complete isdecimal _
                  (skipn n (skipn i text)) Hh) as [m Hm].
      rewrite firstn_skipn in Hm.
      pose proof (Hno (firstn i text) (skipn i text)) as H0.
      rewrite app_nil_r, firstn_skipn in H0.
      rewrite H0 in Hm; [discriminate|reflexivity|].
      intros E0. apply (f_equal (@length char)) in E0.
      rewrite length_skipn in E0. simpl in E0. lia.
    + exfalso. now apply (proj2 (chapters_loop_headed parts Hhd)).
  - intros Hocc. destruct Hr as [[_ ->]|(n & Hn & _)]; [reflexivity|].
    pose proof (match_heading_occurrence isdecimal pre rest n Hn) as Hin.
    rewrite <- E, Hocc in Hin. contradiction.
Qed.

End ChapterContent.

(** ** Translation driver *)

Section TranslationProperties.

Variable enc : option (str -> list N).
Variable client : nat -> str -> option str.

Lemma translate_loop_answers segments :
  forall calls replies translated,
    answers client calls segments replies ->
    translate_loop client calls segments translated
    = ((calls + length segments)%nat,
       Some (translated ++ map strip replies)).
Proof.
  induction segments as [|seg segments IH]; intros calls replies translated H.
  - destruct replies; [|contradiction]. simpl.
    now rewrite app_nil_r, Nat.add_0_r.
  - destruct replies as [|reply replies]; [contradiction|].
    destruct H as [Hc H]. cbn [translate_loop]. unfold translate_chunk.
    rewrite Hc. cbn [option_map]. rewrite (IH _ _ _ H).
    cbn [map length]. rewrite <- app_assoc. f_equal. lia.
Qed.

(** X18. When the service answers every segment of the chapter, the
    translation of the chapter is the replies, each stripped, in the
    order of the segments and joined by blank lines, and one request was
    made for each segment. *)
Theorem translate_full_chapter_success calls chapter_text replies :
  answers client calls (segment_chapter enc chapter_text) replies ->
  translate_full_chapter enc client calls chapter_text
  = ((calls + length (segment_chapter enc chapter_text))%nat,
     Some (join [c_newline; c_newline] (map strip replies))).
Proof.
  intros H. unfold translate_full_chapter.
  now rewrite (translate_loop_answers _ _ _ [] H).
Qed.

Lemma translate_loop_failure before :
  forall calls replies translated seg after,
    answers client calls before replies ->
    client (calls + length before)%nat seg = None ->
    translate_loop client calls (before ++ seg :: after) translated
    = ((calls + length before + 1)%nat, None).
Proof.
  induction before as [|b before IH];
    intros calls replies translated seg after H Hfail.
  - cbn [app translate_loop]. unfold translate_chunk.
    rewrite Nat.add_0_r in Hfail. rewrite Hfail. simpl. f_equal. lia.
  - destruct replies as [|reply replies]; [contradiction|].
    destruct H as [Hc H]. cbn [app translate_loop]. unfold translate_chunk.
    rewrite Hc. cbn [option_map].
    rewrite (IH (S calls) replies _ seg after H).
    + f_equal. simpl. lia.
    + rewrite <- Hfail. f_equal. simpl. lia.
Qed.

(** X19. When the request for a segment fails after the segments before
    it were answered, the translation of the chapter fails and the
    failing request is the last one made: the segments after it are not
    sent. *)
Theorem translate_full_chapter_failure calls chapter_text before seg after
    replies :
  segment_chapter enc chapter_text = before ++ seg :: after ->
  answers client calls before replies ->
  client (calls + length before)%nat seg = None ->
  translate_full_chapter enc client calls chapter_text
  = ((calls + length before + 1)%nat, None).
Proof.
  intros Hseg H Hfail. unfold translate_full_chapter.
  now rewrite Hseg, (translate_loop_failure _ _ _ [] _ _ H Hfail).
Qed.

Lemma main_loop_prefix chapters :
  forall calls idx saved,
    exists done rest texts calls_mid,
      chapters = done ++ rest
      /\ translated enc client calls done texts calls_mid
      /\ snd (main_loop enc client calls idx chapters saved)
         = saved ++ combine (seq idx (length done)) texts
      /\ ((rest = []
           /\ fst (main_loop enc client calls idx chapters saved) = calls_mid)
          \/ exists chapter rest',
               rest = chapter :: rest'
               /\ translate_full_chapter enc client calls_mid chapter
                  = (fst (main_loop enc client calls idx chapters saved),
                     None)).
Proof.
  induction chapters as [|chapter chapters IH]; intros calls idx saved.
  - exists [], [], [], calls.
    split; [reflexivity|]. split; [reflexivity|].
    split; [simpl; now rewrite app_nil_r|]. left. now split.
  - cbn [main_loop].
    destruct (translate_full_chapter enc client calls chapter)
      as [calls' [text|]] eqn:E.
    + destruct (IH calls' (S idx) (saved ++ [(idx, text)]))
        as (done & rest & texts & calls_mid & -> & Htr & Hsaved & Hend).
      exists (chapter :: done), rest, (text :: texts), calls_mid.
      split; [reflexivity|]. split; [exists calls'; now split|].
      split; [|exact Hend].
      rewrite Hsaved, <- app_assoc. reflexivity.
    + exists [], (chapter :: chapters), [], calls.
      split; [reflexivity|]. split; [reflexivity|].
      split; [simpl; now rewrite app_nil_r|].
      right. exists chapter, chapters. split; [reflexivity|exact E].
Qed.

(** X20. Whatever the service does, the run translates the chapters of a
    first part of the document and saves exactly their translations,
    numbered 1, 2, 3 and so on.  Either that part is the whole document,
    or the translation of the next chapter failed: the run stopped there,
    with no request after the failing one and no file for that chapter
    or any after it. *)
Theorem main_run_saved_prefix isdecimal text :
  exists done rest texts calls_mid,
    split_text_into_chapters isdecimal text = done ++ rest
    /\ translated enc client 0 done texts calls_mid
    /\ snd (main_run enc client isdecimal text)
       = combine (seq 1 (length done)) texts
    /\ ((rest = [] /\ fst (main_run enc client isdecimal text) = calls_mid)
        \/ exists chapter rest',
             rest = chapter :: rest'
             /\ translate_full_chapter enc client calls_mid chapter
                = (fst (main_run enc client isdecimal text), None)).
Proof.
  unfold main_run.
  destruct (main_loop_prefix (split_text_into_chapters isdecimal text)
              0%nat 1%nat [])
    as (done & rest & texts & calls_mid & E & Htr & Hsaved & Hend).
  exists done, rest, texts, calls_mid. auto.
Qed.

Lemma split_text_into_chapters_no_heading isdecimal text :
  heading_occurrences isdecimal text = [] ->
  split_text_into_chapters isdecimal text = [].
Proof.
  intros Hocc. unfold split_text_into_chapters, pattern_split.
  rewrite pattern_split_from_no_match; [reflexivity|].
  intros a1 a2 ->.
  destruct (match_heading isdecimal a2) as [n|] eqn:Hn; [|reflexivity].
  pose proof (match_heading_occurrence isdecimal a1 a2 n Hn) as Hin.
  rewrite Hocc in Hin. contradiction.
Qed.

(** X21. On a document in which nothing matches the heading pattern the
    run makes no request and saves no file. *)
Theorem main_run_no_heading isdecimal text :
  heading_occurrences isdecimal text = [] ->
  main_run enc client isdecimal text = (0%nat, []).
Proof.
  intros Hocc. unfold main_run.
  now rewrite (split_text_into_chapters_no_heading _ _ Hocc).
Qed.

Lemma translate_loop_total segments :
  (forall n s, client n s <> None) ->
  forall calls translated,
    exists result,
      translate_loop client calls segments translated
      = ((calls + length segments)%nat, Some result).
Proof.
  intros Hok. induction segments as [|seg segments IH];
    intros calls translated; cbn [translate_loop].
  - exists translated. now rewrite Nat.add_0_r.
  - unfold translate_chunk.
    destruct (client calls seg) as [reply|] eqn:E; [|now apply Hok in E].
    cbn [option_map].
    destruct (IH (S calls) (translated ++ [strip reply])) as [result ->].
    exists result. f_equal. simpl. lia.
Qed.

Lemma main_loop_total chapters :
  (forall n s, client n s <> None) ->
  forall calls idx saved,
    fst (main_loop enc client calls idx chapters saved)
    = (calls + length (flat_map (segment_chapter enc) chapters))%nat
    /\ length (snd (main_loop enc client calls idx chapters saved))
       = (length saved + length chapters)%nat.
Proof.
  intros Hok. induction chapters as [|chapter chapters IH];
    intros calls idx saved; cbn [main_loop].
  - simpl. split; lia.
  - unfold translate_full_chapter.
    destruct (translate_loop_total (segment_chapter enc chapter) Hok calls [])
      as [result ->].
    cbn [option_map].
    destruct (IH (calls + length (segment_chapter enc chapter))%nat (S idx)
                (saved ++ [(idx, join [c_newline; c_newline] result)]))
      as [Hc Hs].
    rewrite Hc, Hs. cbn [flat_map]. rewrite !length_app. simpl. split; lia.
Qed.

(** X22. When no request fails, the run saves one file for every chapter
    and makes one request for every segment of every chapter. *)
Theorem main_run_all_saved isdecimal text :
  (forall n s, client n s <> None) ->
  fst (main_run enc client isdecimal text)
  = length (flat_map (segment_chapter enc)
              (split_text_into_chapters isdecimal text))
  /\ length (snd (main_run enc client isdecimal text))
     = length (split_text_into_chapters isdecimal text).
Proof.
  intros Hok. unfold main_run.
  destruct (main_loop_total (split_text_into_chapters isdecimal text) Hok
              0%nat 1%nat []) as [Hc Hs].
  rewrite Hc, Hs. now split.
Qed.

End TranslationProperties.

(** ** Chapter segmenter: paragraphs that fit are kept whole *)

Lemma has_blank_cons2 c d s :
  has_blank (c :: d :: s)
  = ((c =? c_newline) && (d =? c_newline))%N || has_blank (d :: s).
Proof. reflexivity. Qed.

Lemma split_blank_first b l p ps :
  split_blank (b :: l) = p :: ps -> p = [] \/ exists p', p = b :: p'.
Proof.
  destruct l as [|d l].
  - simpl. intros H. injection H as <- _. right. now exists [].
  - rewrite split_blank_cons2.
    destruct ((b =? c_newline) && (d =? c_newline))%N.
    + intros H. injection H as <- _. now left.
    + destruct (split_blank (d :: l)) as [|p0 ps0]; intros H;
        injection H as <- _; right; eauto.
Qed.

Lemma split_blank_no_blank s :
  Forall (fun part => has_blank part = false) (split_blank s).
Proof.
  induction s as [| a | a b l IHl IHbl] using list_pair_ind.
  - now repeat constructor.
  - now repeat constructor.
  - rewrite split_blank_cons2.
    destruct ((a =? c_newline) && (b =? c_newline))%N eqn:E.
    + now constructor.
    + destruct (split_blank (b :: l)) as [|p ps] eqn:Es;
        [now repeat constructor|].
      inversion IHbl as [|? ? Hp Hps]; subst. constructor; [|assumption].
      destruct (split_blank_first _ _ _ _ Es) as [->|[p' ->]];
        [reflexivity|].
      now rewrite has_blank_cons2, E, Hp.
Qed.

Lemma has_blank_tail c s : has_blank (c :: s) = false -> has_blank s = false.
Proof.
  destruct s as [|d s]; [reflexivity|].
  rewrite has_blank_cons2. intros H. now apply orb_false_elim in H.
Qed.

Lemma has_blank_lstrip s : has_blank s = false -> has_blank (lstrip s) = false.
Proof.
  induction s as [|c s IH]; simpl lstrip; [reflexivity|].
  intros H. destruct (isspace c); [|assumption].
  apply IH. now apply has_blank_tail in H.
Qed.

Lemma rstrip_head s d r : rstrip s = d :: r -> exists t, s = d :: t.
Proof.
  destruct s as [|c s]; [discriminate|]. simpl.
  destruct (rstrip s).
  - destruct (isspace c); [discriminate|]. intros H. injection H as <- _.
    eauto.
  - intros H. injection H as <- _. eauto.
Qed.

Lemma has_blank_rstrip s : has_blank s = false -> has_blank (rstrip s) = false.
Proof.
  induction s as [|c s IH]; [reflexivity|].
  intros H. pose proof (has_blank_tail _ _ H) as Ht. specialize (IH Ht).
  simpl rstrip. destruct (rstrip s) as [|d r] eqn:E.
  - now destruct (isspace c).
  - destruct (rstrip_head _ _ _ E) as [t ->].
    rewrite has_blank_cons2 in H. apply orb_false_elim in H as [H _].
    now rewrite has_blank_cons2, H, IH.
Qed.

Lemma paragraphs_of_are_paragraphs t : Forall is_paragraph (paragraphs_of t).
Proof.
  apply Forall_forall. intros p Hp.
  destruct (strip_nonempty_In _ _ Hp) as (Hs & He & _).
  repeat split; try assumption.
  unfold paragraphs_of, strip_nonempty in Hp.
  apply in_map_iff in Hp as (x & <- & Hx). apply filter_In in Hx as [Hx _].
  pose proof (split_blank_no_blank t) as Hall.
  rewrite Forall_forall in Hall.
  unfold strip. apply has_blank_rstrip, has_blank_lstrip. now apply Hall.
Qed.

Lemma split_blank_single p : has_blank p = false -> split_blank p = [p].
Proof.
  induction p as [|c p IH]; [reflexivity|].
  intros H. destruct p as [|d p]; [reflexivity|].
  rewrite split_blank_cons2. rewrite has_blank_cons2 in H.
  apply orb_false_elim in H as [H1 H2]. now rewrite H1, IH.
Qed.

Lemma split_blank_paragraph p r :
  has_blank p = false -> ends_nonspace p ->
  split_blank (p ++ [c_newline; c_newline] ++ r) = p :: split_blank r.
Proof.
  induction p as [|c p IH]; intros Hb He.
  - destruct He as (s' & c & E & _). now destruct s'.
  - destruct p as [|d p].
    + destruct He as (s' & e & E & He).
      assert (c = e) by (destruct s' as [|? [|? ?]]; now inversion E).
      subst e. cbn [app]. rewrite split_blank_cons2.
      assert (Hc : (c =? c_newline)%N = false).
      { destruct (c =? c_newline)%N eqn:Ec; [|reflexivity].
        apply isspace_newline in Ec. congruence. }
      rewrite Hc. cbn [andb]. rewrite split_blank_cons2.
      now rewrite N.eqb_refl.
    + change ((c :: d :: p) ++ [c_newline; c_newline] ++ r)
        with (c :: d :: (p ++ [c_newline; c_newline] ++ r)).
      rewrite split_blank_cons2. rewrite has_blank_cons2 in Hb.
      apply orb_false_elim in Hb as [H1 H2]. rewrite H1.
      change (d :: p ++ [c_newline; c_newline] ++ r)
        with ((d :: p) ++ [c_newline; c_newline] ++ r).
      rewrite IH; [reflexivity|assumption|].
      destruct He as (s' & e & E & He). destruct s' as [|x s'];
        [discriminate|].
      injection E as -> E. now exists s', e.
Qed.

Lemma strip_nonempty_cons_clean p l :
  starts_nonspace p -> ends_nonspace p ->
  strip_nonempty (p :: l) = p :: strip_nonempty l.
Proof.
  intros Hs He. pose proof (strip_clean _ Hs He) as E.
  unfold strip_nonempty. cbn [filter]. rewrite E.
  destruct Hs as (c & s' & -> & Hc). cbn [truthy map]. now rewrite E.
Qed.

Lemma paragraphs_of_blank_line r :
  paragraphs_of ([c_newline; c_newline] ++ r) = paragraphs_of r.
Proof. reflexivity. Qed.

Lemma paragraphs_of_paragraph_then p r :
  is_paragraph p ->
  paragraphs_of (p ++ [c_newline; c_newline] ++ r) = p :: paragraphs_of r.
Proof.
  intros (Hs & He & Hb). unfold paragraphs_of.
  rewrite split_blank_paragraph by assumption.
  now apply strip_nonempty_cons_clean.
Qed.

Lemma paragraphs_of_paragraph p : is_paragraph p -> paragraphs_of p = [p].
Proof.
  intros (Hs & He & Hb). unfold paragraphs_of.
  rewrite split_blank_single by assumption.
  now rewrite strip_nonempty_cons_clean.
Qed.

Lemma tail_text_cons p rest :
  tail_text (p :: rest) = [c_newline; c_newline] ++ p ++ tail_text rest.
Proof. reflexivity. Qed.

Lemma tail_text_snoc ps p :
  tail_text (ps ++ [p]) = tail_text ps ++ [c_newline; c_newline] ++ p.
Proof.
  unfold tail_text. rewrite map_app, concat_app. simpl.
  now rewrite app_nil_r.
Qed.

Lemma chain_ends_nonspace p rest :
  is_paragraph p -> Forall is_paragraph rest ->
  ends_nonspace (p ++ tail_text rest).
Proof.
  intros Hp Hrest. revert p Hp.
  induction Hrest as [|q rest Hq _ IH]; intros p Hp.
  - unfold tail_text. simpl. rewrite app_nil_r. apply Hp.
  - rewrite tail_text_cons. apply ends_nonspace_app, ends_nonspace_app.
    now apply IH.
Qed.

Lemma paragraphs_of_chain p rest :
  is_paragraph p -> Forall is_paragraph rest ->
  paragraphs_of (p ++ tail_text rest) = p :: rest.
Proof.
  intros Hp Hrest. revert p Hp.
  induction Hrest as [|q rest Hq _ IH]; intros p Hp.
  - unfold tail_text. simpl. rewrite app_nil_r.
    now apply paragraphs_of_paragraph.
  - rewrite tail_text_cons, paragraphs_of_paragraph_then by assumption.
    now rewrite IH.
Qed.

(** What the accumulator gives when it is flushed: its paragraphs. *)
Lemma acc_of_flush cur ps :
  Forall is_paragraph ps -> acc_of cur ps ->
  flat_map paragraphs_of (if truthy cur then [strip cur] else []) = ps.
Proof.
  intros Hps [->|(p & rest & -> & ->)].
  - destruct ps as [|p rest]; [reflexivity|].
    inversion Hps as [|? ? Hp Hrest]; subst.
    rewrite tail_text_cons. cbn [app truthy flat_map]. rewrite app_nil_r.
    change (c_newline :: c_newline :: p ++ tail_text rest)
      with ([c_newline; c_newline] ++ p ++ tail_text rest).
    rewrite strip_spaces_left by reflexivity.
    rewrite strip_clean.
    + now apply paragraphs_of_chain.
    + apply starts_nonspace_app, Hp.
    + now apply chain_ends_nonspace.
  - inversion Hps as [|? ? Hp Hrest]; subst.
    assert (Ht : truthy (p ++ [c_newline; c_newline] ++ tail_text rest)
                 = true).
    { destruct Hp as ((c & s' & -> & _) & _). reflexivity. }
    rewrite Ht. cbn [flat_map]. rewrite app_nil_r.
    destruct rest as [|q rest].
    + unfold tail_text. simpl concat. rewrite app_nil_r.
      rewrite strip_spaces_right; [|apply Hp|reflexivity].
      destruct Hp as (Hs & He & Hb). rewrite (strip_clean _ Hs He).
      now apply paragraphs_of_paragraph.
    + inversion Hrest as [|? ? Hq Hrest']; subst.
      rewrite strip_clean.
      * rewrite paragraphs_of_paragraph_then by assumption.
        rewrite tail_text_cons, paragraphs_of_blank_line.
        now rewrite paragraphs_of_chain.
      * apply starts_nonspace_app, Hp.
      * rewrite tail_text_cons.
        apply ends_nonspace_app, ends_nonspace_app, ends_nonspace_app.
        now apply chain_ends_nonspace.
Qed.

Lemma acc_of_add cur ps p :
  acc_of cur ps -> acc_of (cur ++ [c_newline; c_newline] ++ p) (ps ++ [p]).
Proof.
  intros [->|(q & rest & -> & ->)].
  - left. now rewrite tail_text_snoc.
  - right. exists q, (rest ++ [p]). split; [reflexivity|].
    now rewrite tail_text_snoc, <- !app_assoc.
Qed.

Lemma acc_of_new p : acc_of (p ++ [c_newline; c_newline]) [p].
Proof. right. now exists p, []. Qed.

Lemma acc_of_truthy cur ps : acc_of cur ps -> ps = [] -> truthy cur = false.
Proof. intros [->|(p & rest & -> & _)] E; [now subst|discriminate]. Qed.

Section KeepsParagraphs.

Variable enc : option (str -> list N).

Lemma flush_paragraphs (segments : list str) (cur : str) ps :
  Forall is_paragraph ps -> acc_of cur ps ->
  flat_map paragraphs_of
    (if truthy cur then segments ++ [strip cur] else segments)
  = flat_map paragraphs_of segments ++ ps.
Proof.
  intros Hps Hacc. pose proof (acc_of_flush cur ps Hps Hacc) as H.
  destruct (truthy cur).
  - now rewrite flat_map_app, H.
  - simpl in H. subst ps. now rewrite app_nil_r.
Qed.

Lemma segment_step_paragraphs (segments : list str) (cur para : str) ps :
  Forall is_paragraph ps -> acc_of cur ps -> is_paragraph para ->
  count_tokens enc para <= MAX_TOKENS ->
  exists ps',
    Forall is_paragraph ps'
    /\ acc_of (snd (segment_step enc (segments, cur) para)) ps'
    /\ flat_map paragraphs_of (fst (segment_step enc (segments, cur) para))
       ++ ps'
       = (flat_map paragraphs_of segments ++ ps) ++ [para].
Proof.
  intros Hps Hacc Hpara Hfit. unfold segment_step.
  rewrite (proj2 (gtb_false _ _) Hfit).
  destruct (count_tokens enc (strip (cur ++ para)) >? MAX_TOKENS).
  - exists [para]. cbn [fst snd].
    split; [constructor; [assumption|constructor]|].
    split; [apply acc_of_new|].
    now rewrite (flush_paragraphs segments cur ps).
  - exists (ps ++ [para]). cbn [fst snd].
    split;
      [apply Forall_app; split;
       [assumption|constructor; [assumption|constructor]]|].
    split; [now apply acc_of_add|]. now rewrite app_assoc.
Qed.

Lemma fold_segment_step_paragraphs paragraphs :
  Forall is_paragraph paragraphs ->
  Forall (fun p => count_tokens enc p <= MAX_TOKENS) paragraphs ->
  forall (segments : list str) (cur : str) ps,
    Forall is_paragraph ps -> acc_of cur ps ->
    flat_map paragraphs_of
      (segment_finish (fold_left (segment_step enc) paragraphs
                         (segments, cur)))
    = (flat_map paragraphs_of segments ++ ps) ++ paragraphs.
Proof.
  induction 1 as [|p paragraphs Hp _ IH]; intros Hfit segments cur ps Hps Hacc.
  - cbn [fold_left]. unfold segment_finish.
    now rewrite (flush_paragraphs segments cur ps), app_nil_r.
  - inversion Hfit as [|? ? Hfp Hfit']; subst. cbn [fold_left].
    destruct (segment_step_paragraphs segments cur p ps Hps Hacc Hp Hfp)
      as (ps' & Hps' & Hacc' & E).
    destruct (segment_step enc (segments, cur) p) as [segments' cur'].
    cbn [fst snd] in *. rewrite (IH Hfit' segments' cur' ps' Hps' Hacc'), E.
    now rewrite <- app_assoc.
Qed.

(** X23. When every paragraph of the chapter fits the budget, splitting
    the segments into paragraphs again gives the paragraphs of the
    chapter, in order: each paragraph is whole in one segment, none is
    lost, repeated or moved. *)
Theorem segment_chapter_keeps_paragraphs chapter_text :
  Forall (fun p => count_tokens enc p <= MAX_TOKENS)
    (paragraphs_of chapter_text) ->
  flat_map paragraphs_of (segment_chapter enc chapter_text)
  = paragraphs_of chapter_text.
Proof.
  intros Hfit. unfold segment_chapter.
  destruct (count_tokens enc chapter_text <=? MAX_TOKENS).
  - simpl. apply app_nil_r.
  - apply (fold_segment_step_paragraphs (paragraphs_of chapter_text)
             (paragraphs_of_are_paragraphs chapter_text) Hfit [] [] []);
      [constructor | now left].
Qed.

End KeepsParagraphs.

(** * The further properties on concrete texts *)

(** Spaces only: no piece. *)
Lemma force_substring_chunks_blank_spaces :
  nws [32; 9; 10]%N = []
  /\ force_substring_chunks [32; 9; 10]%N 5 = [].
Proof.
  assert (H : nws [32; 9; 10]%N = []) by reflexivity.
  split; [exact H | exact (force_substring_chunks_blank _ 5 H)].
Defined.

(** " ab  c " with bound 3: one piece, "ab c". *)
Lemma force_substring_chunks_fits_abc :
  split_ws [32; 97; 98; 32; 32; 99; 32]%N <> []
  /\ sum_len (split_ws [32; 97; 98; 32; 32; 99; 32]%N) <= 3
  /\ force_substring_chunks [32; 97; 98; 32; 32; 99; 32]%N 3
     = [join [c_space] (split_ws [32; 97; 98; 32; 32; 99; 32]%N)].
Proof.
  assert (H1 : split_ws [32; 97; 98; 32; 32; 99; 32]%N <> [])
    by (vm_compute; discriminate).
  assert (H2 : sum_len (split_ws [32; 97; 98; 32; 32; 99; 32]%N) <= 3)
    by (vm_compute; discriminate).
  split; [exact H1|]. split; [exact H2|].
  exact (force_substring_chunks_fits _ 3 H1 H2).
Defined.

(** "abcd e" with bound 3: the first word is oversized. *)
Lemma force_substring_chunks_empty_piece_abcd :
  split_ws [97; 98; 99; 100; 32; 101]%N = [[97; 98; 99; 100]; [101]]%N
  /\ exists p rest,
       force_substring_chunks [97; 98; 99; 100; 32; 101]%N 3 = p :: rest
       /\ (p = [] <-> 3 < len [97; 98; 99; 100]%N)
       /\ Forall (fun q => q <> []) rest.
Proof.
  assert (H : split_ws [97; 98; 99; 100; 32; 101]%N
              = [[97; 98; 99; 100]; [101]]%N) by reflexivity.
  split; [exact H | exact (force_substring_chunks_empty_piece _ 3 _ _ H)].
Defined.

(** "ab c de" with bound 3: "ab c", then "de", which did not fit. *)
Lemma force_substring_chunks_greedy_abcde :
  force_substring_chunks [97; 98; 32; 99; 32; 100; 101]%N 3
  = [] ++ [97; 98; 32; 99]%N :: [100; 101]%N :: []
  /\ split_ws [100; 101]%N = [[100; 101]%N]
  /\ 3 < sum_len (split_ws [97; 98; 32; 99]%N) + len [100; 101]%N.
Proof.
  assert (H1 : force_substring_chunks [97; 98; 32; 99; 32; 100; 101]%N 3
               = [] ++ [97; 98; 32; 99]%N :: [100; 101]%N :: [])
    by reflexivity.
  assert (H2 : split_ws [100; 101]%N = [[100; 101]%N]) by reflexivity.
  split; [exact H1|]. split; [exact H2|].
  exact (force_substring_chunks_greedy _ 3 _ _ _ _ _ _ H1 H2).
Defined.

(** The overlap prefix of "ab cd". *)
Lemma overlap_of_last_words_abcd :
  exists before,
    split_ws [97; 98; 32; 99; 100]%N
    = before ++ split_ws (overlap_of [97; 98; 32; 99; 100]%N)
    /\ sum_len (split_ws (overlap_of [97; 98; 32; 99; 100]%N))
       <= OVERLAP_TOKENS
    /\ (forall before' w,
           before = before' ++ [w] ->
           OVERLAP_TOKENS
           < sum_len (split_ws (overlap_of [97; 98; 32; 99; 100]%N)) + len w).
Proof. exact (overlap_of_last_words [97; 98; 32; 99; 100]%N). Defined.

(** A blank paragraph: no sub-chunk. *)
Lemma break_large_paragraph_blank_spaces :
  nws [32; 10]%N = [] /\ break_large_paragraph None [32; 10]%N = [].
Proof.
  assert (H : nws [32; 10]%N = []) by reflexivity.
  split; [exact H | exact (break_large_paragraph_blank None _ H)].
Defined.

(** 甲。乙。: two sentences, one sub-chunk. *)
Lemma break_large_paragraph_count_two_sentences :
  nws [30002; 12290; 20057; 12290]%N <> []
  /\ (1 <= length (break_large_paragraph None [30002; 12290; 20057; 12290]%N)
      <= length (sentences_of [30002; 12290; 20057; 12290]%N))%nat.
Proof.
  assert (H : nws [30002; 12290; 20057; 12290]%N <> [])
    by (vm_compute; discriminate).
  split; [exact H | exact (break_large_paragraph_count None _ H)].
Defined.

Lemma break_large_paragraph_within_sub_chunk_size_two_sentences :
  Forall (fun s => len s <= SUB_CHUNK_SIZE - 2 * OVERLAP_TOKENS)
    (sentences_of [30002; 12290; 20057; 12290]%N)
  /\ Forall (fun sc => count_tokens None sc <= SUB_CHUNK_SIZE)
       (break_large_paragraph None [30002; 12290; 20057; 12290]%N).
Proof.
  assert (H : Forall (fun s => len s <= SUB_CHUNK_SIZE - 2 * OVERLAP_TOKENS)
                (sentences_of [30002; 12290; 20057; 12290]%N)).
  { change (sentences_of [30002; 12290; 20057; 12290]%N)
      with [[30002; 12290]; [20057; 12290]]%N.
    repeat constructor; vm_compute; discriminate. }
  split; [exact H | exact (break_large_paragraph_within_sub_chunk_size _ H)].
Defined.

(** 甲。乙。 comes back as 甲。 乙。, with a space that was not there. *)
Lemma break_large_paragraph_fits_two_sentences :
  break_large_paragraph None [30002; 12290; 20057; 12290]%N
  = [join [c_space] (sentences_of [30002; 12290; 20057; 12290]%N)]
  /\ join [c_space] (sentences_of [30002; 12290; 20057; 12290]%N)
     = [30002; 12290; 32; 20057; 12290]%N.
Proof.
  split; [|reflexivity].
  apply break_large_paragraph_fits.
  - vm_compute. discriminate.
  - vm_compute. discriminate.
Defined.

(** 6001 spaces: over the budget and blank. *)
Lemma segment_chapter_nil_iff_spaces :
  MAX_TOKENS < count_tokens None (times [c_space] 6001)
  /\ (segment_chapter None (times [c_space] 6001) = []
      <-> nws (times [c_space] 6001) = []).
Proof.
  assert (H : MAX_TOKENS < count_tokens None (times [c_space] 6001))
    by (vm_compute; reflexivity).
  split; [exact H | exact (segment_chapter_nil_iff None _ H)].
Defined.

Lemma segment_chapter_stripped_letters :
  MAX_TOKENS < count_tokens None (times [97%N] 6001)
  /\ Forall (fun s => strip s = s) (segment_chapter None (times [97%N] 6001)).
Proof.
  assert (H : MAX_TOKENS < count_tokens None (times [97%N] 6001))
    by (vm_compute; reflexivity).
  split; [exact H | exact (segment_chapter_stripped None _ H)].
Defined.

(** Three paragraphs of 3000, 3000 and 1 characters: two segments, three
    paragraphs again. *)
Lemma segment_chapter_keeps_paragraphs_letters :
  let chapter_text :=
    times [97%N] 3000 ++ [c_newline; c_newline] ++ times [98%N] 3000
    ++ [c_newline; c_newline] ++ [99%N] in
  Forall (fun p => count_tokens None p <= MAX_TOKENS)
    (paragraphs_of chapter_text)
  /\ flat_map paragraphs_of (segment_chapter None chapter_text)
     = paragraphs_of chapter_text.
Proof.
  cbv zeta.
  assert (H : Forall (fun p => count_tokens None p <= MAX_TOKENS)
                (paragraphs_of
                   (times [97%N] 3000 ++ [c_newline; c_newline]
                    ++ times [98%N] 3000 ++ [c_newline; c_newline]
                    ++ [99%N]))).
  { replace (paragraphs_of
               (times [97%N] 3000 ++ [c_newline; c_newline]
                ++ times [98%N] 3000 ++ [c_newline; c_newline] ++ [99%N]))
      with [times [97%N] 3000; times [98%N] 3000; [99%N]]
      by (vm_compute; reflexivity).
    repeat constructor; vm_compute; discriminate. }
  split; [exact H | exact (segment_chapter_keeps_paragraphs None _ H)].
Defined.

(** 序 第一回甲: the preamble and what follows the first heading. *)
Lemma split_text_into_chapters_content_preamble :
  exists preamble rest,
    [24207; 32; c_di; 19968; c_hui; 30002]%N = preamble ++ rest
    /\ nws (concat (split_text_into_chapters isdecimal_ascii
                      [24207; 32; c_di; 19968; c_hui; 30002]%N))
       = nws rest
    /\ (forall a1 a2, preamble = a1 ++ a2 -> a2 <> [] ->
                      match_heading isdecimal_ascii (a2 ++ rest) = None)
    /\ (rest = [] \/ exists n, match_heading isdecimal_ascii rest = Some n).
Proof.
  exact (split_text_into_chapters_content isdecimal_ascii
           [24207; 32; c_di; 19968; c_hui; 30002]%N).
Defined.

(** A service that repeats what it is sent, padded with a space. *)
Lemma translate_full_chapter_success_echo :
  let client := fun (_ : nat) (s : str) => Some (s ++ [c_space]) in
  answers client 0 (segment_chapter None [30002; 12290]%N)
    [[30002; 12290; c_space]%N]
  /\ translate_full_chapter None client 0 [30002; 12290]%N
     = ((0 + length (segment_chapter None [30002; 12290]%N))%nat,
        Some (join [c_newline; c_newline]
                (map strip [[30002; 12290; c_space]%N]))).
Proof.
  cbv zeta.
  assert (H : answers (fun (_ : nat) (s : str) => Some (s ++ [c_space])) 0
                (segment_chapter None [30002; 12290]%N)
                [[30002; 12290; c_space]%N])
    by (vm_compute; auto).
  split; [exact H | exact (translate_full_chapter_success None _ 0 _ _ H)].
Defined.

(** A service that answers the first request and fails on the second,
    on a chapter of two segments. *)
Lemma translate_full_chapter_failure_second :
  let client :=
    fun (n : nat) (_ : str) => if (n =? 0)%nat then Some [] else None in
  translate_full_chapter None client 0 (times [97%N] 6001)
  = ((0 + length [@nil char] + 1)%nat, None).
Proof.
  cbv zeta.
  apply (translate_full_chapter_failure None _ 0 (times [97%N] 6001)
           [[]] (times [97%N] 6001) [] [[]]).
  - vm_compute. reflexivity.
  - vm_compute. auto.
  - reflexivity.
Defined.

(** 第一回甲 第二回乙 with a service that answers the first request and
    fails on the second: one file, for the first chapter, two requests. *)
Lemma main_run_saved_prefix_second_fails :
  main_run None
    (fun (n : nat) (s : str) => if (n =? 0)%nat then Some s else None)
    isdecimal_ascii
    [c_di; 19968; c_hui; 30002; 32; c_di; 20108; c_hui; 20057]%N
  = (2%nat, [(1%nat, [c_di; 19968; c_hui; 30002]%N)])
  /\ exists done rest texts calls_mid,
       split_text_into_chapters isdecimal_ascii
         [c_di; 19968; c_hui; 30002; 32; c_di; 20108; c_hui; 20057]%N
       = done ++ rest
       /\ translated None
            (fun (n : nat) (s : str) => if (n =? 0)%nat then Some s else None)
            0 done texts calls_mid
       /\ snd (main_run None
                 (fun (n : nat) (s : str) =>
                    if (n =? 0)%nat then Some s else None)
                 isdecimal_ascii
                 [c_di; 19968; c_hui; 30002; 32; c_di; 20108; c_hui; 20057]%N)
          = combine (seq 1 (length done)) texts
       /\ ((rest = []
            /\ fst (main_run None
                      (fun (n : nat) (s : str) =>
                         if (n =? 0)%nat then Some s else None)
                      isdecimal_ascii
                      [c_di; 19968; c_hui; 30002; 32; c_di; 20108; c_hui;
                       20057]%N)
               = calls_mid)
           \/ exists chapter rest',
                rest = chapter :: rest'
                /\ translate_full_chapter None
                     (fun (n : nat) (s : str) =>
                        if (n =? 0)%nat then Some s else None)
                     calls_mid chapter
                   = (fst (main_run None
                             (fun (n : nat) (s : str) =>
                                if (n =? 0)%nat then Some s else None)
                             isdecimal_ascii
                             [c_di; 19968; c_hui; 30002; 32; c_di; 20108;
                              c_hui; 20057]%N),
                      None)).
Proof.
  split; [reflexivity|].
  exact (main_run_saved_prefix None
           (fun (n : nat) (s : str) => if (n =? 0)%nat then Some s else None)
           isdecimal_ascii
           [c_di; 19968; c_hui; 30002; 32; c_di; 20108; c_hui; 20057]%N).
Defined.

(** A document without heading: nothing is requested, nothing saved. *)
Lemma main_run_no_heading_plain :
  let client := fun (_ : nat) (s : str) => Some s in
  heading_occurrences isdecimal_ascii [30002; 20057; 12290]%N = []
  /\ main_run None client isdecimal_ascii [30002; 20057; 12290]%N
     = (0%nat, []).
Proof.
  cbv zeta.
  assert (H : heading_occurrences isdecimal_ascii [30002; 20057; 12290]%N
              = []) by reflexivity.
  split; [exact H | exact (main_run_no_heading None _ _ _ H)].
Defined.

(** 第一回甲 第二回乙 with a service that always answers: two files, two
    requests. *)
Lemma main_run_all_saved_two_chapters :
  let client := fun (_ : nat) (s : str) => Some s in
  let text :=
    [c_di; 19968; c_hui; 30002; 32; c_di; 20108; c_hui; 20057]%N in
  fst (main_run None client isdecimal_ascii text)
  = length (flat_map (segment_chapter None)
              (split_text_into_chapters isdecimal_ascii text))
  /\ length (snd (main_run None client isdecimal_ascii text))
     = length (split_text_into_chapters isdecimal_ascii text).
Proof.
  cbv zeta. apply main_run_all_saved. discriminate.
Defined.
